(** * Symphony storage engine: slot allocator, paged sparse index,
      packed record store and their composition.

    Shallow embedding of
      - [IndirectionTable]  (Container/IndirectionTable.h),
      - [SparseSet] and its nested [Bucket] (Container/SparseSet.h),
      - [DenseArray]        (Container/DenseArray.h),
      - [PackedArray]       (Container/PackedArray.h).

    Unsigned C++ quantities ([size_t], [Entity]) are binary naturals [N];
    where the source subtracts from a [size_t] the wrap-around at 2^64 is
    written out.  [std::vector] is a list in vector order ([push_back]
    appends, [back] is the last element), [std::map] and
    [std::unordered_map] are [gmap]s.  A failed [assert] and behaviour the
    language leaves undefined end the computation with a [condition]. *)

From Stdlib Require Import NArith Lia.
From stdpp Require Import base option list numbers sorting gmap fin_maps.

Local Open Scope N_scope.

(** Hands [lia] the defining facts of [n / 2], on [nat] and on [N], and
    hides the quotient and the remainder behind variables. *)
Ltac halve n :=
  let q := fresh "q" in
  let r := fresh "r" in
  pose proof (Nat.div_mod_eq n 2);
  pose proof (Nat.mod_upper_bound n 2 ltac:(discriminate));
  set (q := (n / 2)%nat) in *; set (r := (n mod 2)%nat) in *;
  clearbody q r.

Ltac halveN n :=
  let q := fresh "q" in
  let r := fresh "r" in
  pose proof (N.div_mod' n 2);
  pose proof (N.mod_lt n 2 ltac:(discriminate));
  set (q := n / 2) in *; set (r := n mod 2) in *;
  clearbody q r.

(* ===================================================================== *)
(** ** Outcomes of operations *)
(* ===================================================================== *)

(** The ways an operation can stop instead of returning. *)
Inductive condition : Set :=
| KeyAlreadyExists  (* assert "Key already exists in DenseArray" *)
| KeyNotFound       (* assert "Key does not exist in DenseArray" *)
| OutOfRange        (* assert "Index out of range" / "... out of bounds!" *)
| Undefined.        (* out-of-bounds access or null dereference with no assert *)

Inductive outcome (A : Type) : Type :=
| Ok (a : A)
| Abort (c : condition).
Arguments Ok {A} a.
Arguments Abort {A} c.

#[global] Instance outcome_ret : MRet outcome := fun A a => Ok a.
#[global] Instance outcome_bind : MBind outcome := fun A B f m =>
  match m with
  | Ok a => f a
  | Abort c => Abort c
  end.

(** [assert(cond && msg)] *)
Definition assert (cond : bool) (c : condition) : outcome unit :=
  if cond then Ok tt else Abort c.

(** [SIZE_MAX + 1] *)
Definition size_t_modulus : N := 2 ^ 64.

(** [a - 1] on [size_t] *)
Definition size_t_pred (a : N) : N := (a + size_t_modulus - 1) mod size_t_modulus.

(** [a++] on [size_t] *)
Definition size_t_succ (a : N) : N := (a + 1) mod size_t_modulus.

(** [v.size()] *)
Definition vsize {A} (v : list A) : N := N.of_nat (length v).

(** [v[i]] of a vector or array: reading outside it is undefined. *)
Definition vget {A} (v : list A) (i : N) : outcome A :=
  match v !! N.to_nat i with
  | Some a => Ok a
  | None => Abort Undefined
  end.

(** [v[i] = a] *)
Definition vset {A} (v : list A) (i : N) (a : A) : outcome (list A) :=
  if bool_decide (i < vsize v) then Ok (<[N.to_nat i := a]> v) else Abort Undefined.

(** [v.back()] followed by [v.pop_back()]: the last element and the rest. *)
Definition vpop {A} (v : list A) : outcome (list A * A) :=
  match last v with
  | Some a => Ok (removelast v, a)
  | None => Abort Undefined
  end.

(* ===================================================================== *)
(** ** IndirectionTable: the slot allocator *)
(* ===================================================================== *)

Module IndirectionTable.

(** [using Value = std::optional<Index>] with [Index = size_t]. *)
Record t : Type := mk {
  m_indirection : list (option N);
  m_freeList : list N;
  m_denseSize : N
}.

(** [Undirected = std::nullopt] *)
Definition Undirected : option N := None.

(** [IndirectionTable() : m_denseSize(0) {}] *)
Definition empty : t := mk [] [] 0.

Definition Next (s : t) : outcome (t * N) :=
  match last (m_freeList s) with
  | Some index =>
      ind ← vset (m_indirection s) index (Some (m_denseSize s));
      mret (mk ind (removelast (m_freeList s)) (size_t_succ (m_denseSize s)), index)
  | None =>
      mret (mk (m_indirection s ++ [Some (m_denseSize s)]) (m_freeList s)
               (size_t_succ (m_denseSize s)),
            m_denseSize s)
  end.

Definition Erase (s : t) (index : N) : outcome t :=
  _ ← assert (bool_decide (index < vsize (m_indirection s))) OutOfRange;
  let freeList := m_freeList s ++ [index] in
  ind ← vset (m_indirection s) index Undirected;
  mret (mk ind freeList (m_denseSize s)).

Definition Put (s : t) (sparseIndex denseIndex : N) : outcome t :=
  _ ← assert (bool_decide (sparseIndex < vsize (m_indirection s))) OutOfRange;
  ind ← vset (m_indirection s) sparseIndex (Some denseIndex);
  mret (mk ind (m_freeList s) (m_denseSize s)).

Definition Clear (s : t) : t := mk [] [] 0.

Definition At (s : t) (sparseIndex : N) : outcome (option N) :=
  _ ← assert (bool_decide (sparseIndex < vsize (m_indirection s))) OutOfRange;
  vget (m_indirection s) sparseIndex.

Definition Size (s : t) : N := vsize (m_indirection s).
Definition DenseSize (s : t) : N := m_denseSize s.

(** The mutating calls of the public interface, and a run of them. *)
Inductive op : Set :=
| OpNext
| OpErase (index : N)
| OpPut (sparseIndex denseIndex : N)
| OpClear.

Definition step (s : t) (o : op) : outcome t :=
  match o with
  | OpNext => '(s', _) ← Next s; mret s'
  | OpErase i => Erase s i
  | OpPut i d => Put s i d
  | OpClear => mret (Clear s)
  end.

Fixpoint run (s : t) (ops : list op) : outcome t :=
  match ops with
  | [] => mret s
  | o :: rest => s' ← step s o; run s' rest
  end.

(** Number of slots whose indirection entry is not [Undirected]. *)
Definition live_slots (s : t) : N :=
  vsize (filter (λ e, e ≠ Undirected) (m_indirection s)).

End IndirectionTable.

(* ===================================================================== *)
(** ** SparseSet: the paged sparse index *)
(* ===================================================================== *)

(** [std::lower_bound(keys, keys + size, key)] as the standard library
    implements it: halve the remaining length, step over the middle
    element when it is less than [key].  The result is a position in
    [0, size].  [fuel] bounds the iterations; [len] itself is enough
    since every iteration at least halves it. *)
Fixpoint lower_bound_loop (fuel : nat) (keys : list N) (key : N)
    (first len : nat) : nat :=
  match fuel with
  | O => first
  | S fuel' =>
      if (len =? 0)%nat then first else
      let half := (len / 2)%nat in
      let middle := (first + half)%nat in
      match keys !! middle with
      | Some x =>
          if x <? key
          then lower_bound_loop fuel' keys key (middle + 1)%nat (len - half - 1)%nat
          else lower_bound_loop fuel' keys key first half
      | None => first
      end
  end.

Definition lower_bound (keys : list N) (key : N) : nat :=
  lower_bound_loop (length keys) keys key 0%nat (length keys).

(** The bucket nested in [SparseSet].  Its two parallel arrays [m_keys] and
    [m_values] and their common length [m_size] are one list of
    (key, value) pairs: the live prefix of the arrays.  Slots at and
    beyond [m_size] are never read by the source. *)
Module Bucket.

Abbreviation t := (list (N * N)).

(** [Bucket() : m_size(0)] *)
Definition empty : t := [].

Definition m_keys (b : t) : list N := b.*1.
Definition Size (b : t) : N := vsize b.

(** [std::binary_search]: [it != last && !(key < *it)] at the lower bound. *)
Definition Contains (b : t) (key : N) : bool :=
  match m_keys b !! lower_bound (m_keys b) key with
  | Some x => negb (key <? x)
  | None => false
  end.

Definition Value (b : t) (key : N) : option N :=
  match b !! lower_bound (m_keys b) key with
  | Some (k, v) => if k =? key then Some v else None
  | None => None
  end.

(** [capacity] is [SPARSE_BUCKET_SIZE]. *)
Definition Insert (capacity : N) (b : t) (key value : N) : t * bool :=
  if capacity <=? Size b then (b, false) else
  let index := lower_bound (m_keys b) key in
  (take index b ++ (key, value) :: drop index b, true).

Definition Remove (b : t) (key : N) : t :=
  let index := lower_bound (m_keys b) key in
  match m_keys b !! index with
  | Some k => if k =? key then take index b ++ drop (S index) b else b
  | None => b
  end.

(** The three two-bucket operations return the new contents of [this]
    and of [other].  The source's self check [other == *this] never
    fires: the callers pass the buckets of two different pages. *)
Definition Distribute (this other : t) : t * t :=
  let mid := (length this / 2)%nat in
  (take mid this, drop mid this).

Definition Merge (this other : t) : t * t :=
  (this ++ other, other).

Definition Rebalance (this other : t) : t * t :=
  let totalSize := (length this + length other)%nat in
  let targetSize := (totalSize / 2)%nat in
  if (length this <? targetSize)%nat then
    let entitiesToMove := (targetSize - length this)%nat in
    (this ++ take entitiesToMove other, drop entitiesToMove other)
  else
    (take targetSize this, drop targetSize this ++ other).

End Bucket.

Module SparseSet.

(** [m_dense] is the allocated array, so [m_capacity] is its length.
    Memory that [allocate] returns is modelled as zeros; the source
    writes a slot before it reads it. *)
Record t : Type := mk {
  m_dense : list N;
  m_sparse : gmap N Bucket.t;
  m_size : N
}.

Definition m_capacity (s : t) : N := vsize (m_dense s).

Section Params.

(** [SPARSE_BUCKET_SHIFT], 10 in the source. *)
Variable SPARSE_BUCKET_SHIFT : N.

(** [m_capacity * m_growFactor] converted back to [size_t]; the
    product is computed in floating point in the source and is kept
    abstract here. *)
Variable grow : N → N.

(** The source's [InvalidValue], declared as
    [std::numeric_limits<_Value>::value], which names no constant. *)
Variable InvalidValue : N.

Definition SPARSE_BUCKET_SIZE : N := N.shiftl 1 SPARSE_BUCKET_SHIFT.

(** [explicit SparseSet(size_t initialCapacity, float growFactor)] *)
Definition create (initialCapacity : N) : t :=
  mk (replicate (N.to_nat initialCapacity) 0) ∅ 0.

Definition GetBucketIndexAndOffset (entity : N) : N * N :=
  (N.shiftr entity SPARSE_BUCKET_SHIFT, N.land entity (SPARSE_BUCKET_SIZE - 1)).

(** [try_emplace] and, when the entry is new, a fresh bucket. *)
Definition GetOrCreateBucket (sparse : gmap N Bucket.t) (bucketIndex : N)
    : gmap N Bucket.t * Bucket.t :=
  match sparse !! bucketIndex with
  | Some b => (sparse, b)
  | None => (<[bucketIndex := Bucket.empty]> sparse, Bucket.empty)
  end.

Definition Resize (s : t) (newCapacity : N) : t :=
  if newCapacity <? m_capacity s then s else
  let kept := take (N.to_nat (m_size s)) (m_dense s) in
  mk (kept ++ replicate (N.to_nat newCapacity - length kept) 0)
     (m_sparse s) (m_size s).

Definition Insert (s : t) (entity value : N) : outcome (t * N) :=
  let '(bucketIndex, offset) := GetBucketIndexAndOffset entity in
  let '(sparse, bucket) := GetOrCreateBucket (m_sparse s) bucketIndex in
  if Bucket.Contains bucket offset then
    mret (mk (m_dense s) sparse (m_size s),
          default (size_t_modulus - 1) (Bucket.Value bucket offset))
  else
    let '(sparse, bucket) :=
      if SPARSE_BUCKET_SIZE <=? Bucket.Size bucket then
        let '(sparse, newBucket) := GetOrCreateBucket sparse (bucketIndex + 1) in
        let '(bucket, newBucket) := Bucket.Distribute bucket newBucket in
        (<[bucketIndex := bucket]> (<[bucketIndex + 1 := newBucket]> sparse), bucket)
      else (sparse, bucket) in
    let s1 := mk (m_dense s) sparse (m_size s) in
    let s2 := if m_size s1 =? m_capacity s1
              then Resize s1 (grow (m_capacity s1)) else s1 in
    dense ← vset (m_dense s2) (m_size s2) entity;
    let bucket := (Bucket.Insert SPARSE_BUCKET_SIZE bucket offset value).1 in
    mret (mk dense (<[bucketIndex := bucket]> sparse) (size_t_succ (m_size s2)),
          m_size s2).

(** The source returns the [std::optional] of [Bucket::Value] where a
    [_Value] is expected; an empty one is read as [InvalidValue], the
    way [Insert] reads it with [value_or]. *)
Definition Get (s : t) (entity : N) : N :=
  let '(bucketIndex, offset) := GetBucketIndexAndOffset entity in
  match m_sparse s !! bucketIndex with
  | Some bucket => default InvalidValue (Bucket.Value bucket offset)
  | None => InvalidValue
  end.

Definition Contains (s : t) (entity : N) : bool :=
  let '(bucketIndex, offset) := GetBucketIndexAndOffset entity in
  match m_sparse s !! bucketIndex with
  | Some bucket => Bucket.Contains bucket offset
  | None => false
  end.

(** The block of [Remove] under "swap it with the last entity".
    [m_sparse[lastBucketIndex]] on a page without bucket yields a
    null pointer, which the source dereferences. *)
Definition swap_with_last (dense : list N) (sparse : gmap N Bucket.t)
    (size removedIndex : N) : outcome (list N * gmap N Bucket.t) :=
  last ← vget dense (size_t_pred size);
  dense ← vset dense removedIndex last;
  let '(lastBucketIndex, lastOffset) := GetBucketIndexAndOffset last in
  match sparse !! lastBucketIndex with
  | None => Abort Undefined
  | Some lastBucket =>
      let lastBucket := Bucket.Remove lastBucket lastOffset in
      let lastBucket :=
        (Bucket.Insert SPARSE_BUCKET_SIZE lastBucket lastOffset removedIndex).1 in
      mret (dense, <[lastBucketIndex := lastBucket]> sparse)
  end.

(** The block of [Remove] under "If a bucket is underfilled". *)
Definition merge_or_rebalance (sparse : gmap N Bucket.t) (bucketIndex : N)
    (bucket : Bucket.t) : gmap N Bucket.t :=
  if Bucket.Size bucket <? N.shiftr SPARSE_BUCKET_SIZE 1 then
    match sparse !! (bucketIndex + 1) with
    | Some nextBucket =>
        if Bucket.Size bucket + Bucket.Size nextBucket <=? SPARSE_BUCKET_SIZE then
          let '(bucket, _) := Bucket.Merge bucket nextBucket in
          delete (bucketIndex + 1) (<[bucketIndex := bucket]> sparse)
        else
          let '(bucket, nextBucket) := Bucket.Rebalance bucket nextBucket in
          <[bucketIndex + 1 := nextBucket]> (<[bucketIndex := bucket]> sparse)
    | None => sparse
    end
  else sparse.

Definition Remove (s : t) (entity : N) : outcome t :=
  let '(bucketIndex, offset) := GetBucketIndexAndOffset entity in
  let '(sparse, bucket) := GetOrCreateBucket (m_sparse s) bucketIndex in
  match Bucket.Value bucket offset with
  | None => mret (mk (m_dense s) sparse (m_size s))
  | Some removedIndex =>
      '(dense, sparse) ←
        (if removedIndex =? size_t_pred (m_size s)
         then mret (m_dense s, sparse)
         else swap_with_last (m_dense s) sparse (m_size s) removedIndex);
      (* [bucket] is a pointer: it sees what the swap did to its page *)
      let bucket := Bucket.Remove (default bucket (sparse !! bucketIndex)) offset in
      let sparse := <[bucketIndex := bucket]> sparse in
      let sparse := merge_or_rebalance sparse bucketIndex bucket in
      mret (mk dense sparse (size_t_pred (m_size s)))
  end.

Definition Size (s : t) : N := m_size s.

Definition Capacity (s : t) : N := m_capacity s.

(** Every bucket is destroyed and the map emptied; [m_dense] is kept. *)
Definition Clear (s : t) : t := mk (m_dense s) ∅ 0.

End Params.

End SparseSet.

(* ===================================================================== *)
(** ** DenseArray: the packed record store *)
(* ===================================================================== *)

Module DenseArray.

Section Comp.

Context {Comp : Type}.

Record t : Type := mk {
  m_components : list Comp;
  m_keyToIndex : gmap N N;
  m_indexToKey : list N
}.

Definition empty : t := mk [] ∅ [].

Definition Size (d : t) : N := vsize (m_components d).

Definition Add (d : t) (key : N) (component : Comp) : outcome t :=
  _ ← assert (bool_decide (m_keyToIndex d !! key = None)) KeyAlreadyExists;
  let newIndex := vsize (m_components d) in
  mret (mk (m_components d ++ [component])
           (<[key := newIndex]> (m_keyToIndex d))
           (m_indexToKey d ++ [key])).

Definition Remove (d : t) (key : N) : outcome t :=
  match m_keyToIndex d !! key with
  | None => Abort KeyNotFound
  | Some indexToRemove =>
      '(components, keyToIndex, indexToKey) ←
        (if indexToRemove =? size_t_pred (vsize (m_components d))
         then mret (m_components d, m_keyToIndex d, m_indexToKey d)
         else
           (* std::swap(m_components[indexToRemove], m_components.back()) *)
           removed ← vget (m_components d) indexToRemove;
           '(_, moved) ← vpop (m_components d);
           components ← vset (m_components d) indexToRemove moved;
           components ← vset components (size_t_pred (vsize components)) removed;
           '(_, lastKey) ← vpop (m_indexToKey d);
           let keyToIndex := <[lastKey := indexToRemove]> (m_keyToIndex d) in
           indexToKey ← vset (m_indexToKey d) indexToRemove lastKey;
           mret (components, keyToIndex, indexToKey));
      '(components, _) ← vpop components;
      '(indexToKey, _) ← vpop indexToKey;
      mret (mk components (delete key keyToIndex) indexToKey)
  end.

Definition Get (d : t) (key : N) : outcome Comp :=
  match m_keyToIndex d !! key with
  | None => Abort KeyNotFound
  | Some index => vget (m_components d) index
  end.

Definition GetByIndex (d : t) (index : N) : outcome Comp :=
  _ ← assert (bool_decide (index < vsize (m_components d))) OutOfRange;
  vget (m_components d) index.

Definition GetKeyAtIndex (d : t) (index : N) : outcome N :=
  _ ← assert (bool_decide (index < vsize (m_indexToKey d))) OutOfRange;
  vget (m_indexToKey d) index.

End Comp.

Arguments t : clear implicits.

End DenseArray.

(* ===================================================================== *)
(** ** PackedArray: the keyed packed storage *)
(* ===================================================================== *)

(** What a [Comp&] returned by [PackedArray::Get] refers to: a record of
    the dense array, with its position and current value, or the function's
    [static Comp dummy], one object shared by every call. *)
Inductive record_ref (Comp : Type) : Type :=
| Stored (index : N) (component : Comp)
| SharedDummy.
Arguments Stored {Comp} index component.
Arguments SharedDummy {Comp}.

Module PackedArray.

(** [Entity] is [uint32_t]: a [size_t] stored in one is truncated. *)
Definition to_Entity (n : N) : N := n mod 2 ^ 32.

Section Comp.

Context {Comp : Type}.

Record t : Type := mk {
  m_sparseSet : SparseSet.t;
  m_denseArray : DenseArray.t Comp
}.

Section Params.

Variable SPARSE_BUCKET_SHIFT : N.
Variable grow : N → N.
Variable InvalidValue : N.

(** Both members are default constructed; the sparse set's default
    [initialCapacity] is [SPARSE_BUCKET_SIZE]. *)
Definition empty : t :=
  mk (SparseSet.create (SparseSet.SPARSE_BUCKET_SIZE SPARSE_BUCKET_SHIFT))
     DenseArray.empty.

Definition Add (p : t) (entity : N) (component : Comp) : outcome t :=
  if SparseSet.Contains SPARSE_BUCKET_SHIFT (m_sparseSet p) entity then mret p
  else
    let index := DenseArray.Size (m_denseArray p) in
    '(sparseSet, _) ←
      SparseSet.Insert SPARSE_BUCKET_SHIFT grow (m_sparseSet p) entity index;
    denseArray ← DenseArray.Add (m_denseArray p) index component;
    mret (mk sparseSet denseArray).

Definition Remove (p : t) (entity : N) : outcome t :=
  let index := SparseSet.Get SPARSE_BUCKET_SHIFT InvalidValue (m_sparseSet p) entity in
  if index =? 0 then mret p
  else
    denseArray ← DenseArray.Remove (m_denseArray p) index;
    sparseSet ←
      (if index <? DenseArray.Size denseArray then
         lastKey ← DenseArray.GetKeyAtIndex denseArray
                     (size_t_pred (DenseArray.Size denseArray));
         let lastEntity := to_Entity lastKey in
         sparseSet ← SparseSet.Remove SPARSE_BUCKET_SHIFT (m_sparseSet p) lastEntity;
         '(sparseSet, _) ←
           SparseSet.Insert SPARSE_BUCKET_SHIFT grow sparseSet lastEntity index;
         mret sparseSet
       else mret (m_sparseSet p));
    sparseSet ← SparseSet.Remove SPARSE_BUCKET_SHIFT sparseSet entity;
    mret (mk sparseSet denseArray).

Definition Get (p : t) (entity : N) : outcome (record_ref Comp) :=
  let index := SparseSet.Get SPARSE_BUCKET_SHIFT InvalidValue (m_sparseSet p) entity in
  if index =? 0 then mret SharedDummy
  else
    component ← DenseArray.GetByIndex (m_denseArray p) index;
    mret (Stored index component).

Definition Size (p : t) : N := DenseArray.Size (m_denseArray p).

End Params.

End Comp.

Arguments t : clear implicits.

End PackedArray.

(* ===================================================================== *)
(** ** Notions used in the statements, and sample states *)
(* ===================================================================== *)

(** The constructor's default [growFactor = 2]. *)
Definition default_grow (capacity : N) : N := 2 * capacity.

(** "Every existing bucket except possibly the highest-indexed occupied
    bucket has occupancy at least half its capacity", in the words of the
    specification. *)
Definition spec_occupancy_bound (shift : N) (s : SparseSet.t) : Prop :=
  ∀ i b, SparseSet.m_sparse s !! i = Some b →
    (∃ j b', i < j ∧ SparseSet.m_sparse s !! j = Some b' ∧ b' ≠ []) →
    N.shiftr (SparseSet.SPARSE_BUCKET_SIZE shift) 1 ≤ Bucket.Size b.

(** "Entries within a bucket are kept sorted by offset": the keys of the
    bucket increase strictly from one entry to the next. *)
Definition sorted_by_offset (b : Bucket.t) : Prop :=
  StronglySorted N.lt (Bucket.m_keys b).

(** The invariants of the packed record store: records and the
    position-to-key sequence have one length, which a [size_t] can hold,
    and [m_keyToIndex] is the inverse of [m_indexToKey]. *)
Definition DenseArray_wf {Comp : Type} (d : DenseArray.t Comp) : Prop :=
  length (DenseArray.m_components d) = length (DenseArray.m_indexToKey d) ∧
  vsize (DenseArray.m_components d) < size_t_modulus ∧
  ∀ key i, DenseArray.m_keyToIndex d !! key = Some i ↔
           DenseArray.m_indexToKey d !! N.to_nat i = Some key.

(** Every bucket of the index holds at most [SPARSE_BUCKET_SIZE] entries. *)
Definition within_capacity (shift : N) (sparse : gmap N Bucket.t) : Prop :=
  ∀ i b, sparse !! i = Some b → Bucket.Size b ≤ SparseSet.SPARSE_BUCKET_SIZE shift.

(** A run of inserts, the i-th key with value [first + i]. *)
Fixpoint insert_all (shift : N) (grow : N → N) (s : SparseSet.t)
    (keys : list N) (first : N) : outcome SparseSet.t :=
  match keys with
  | [] => mret s
  | k :: rest =>
      '(s', _) ← SparseSet.Insert shift grow s k first;
      insert_all shift grow s' rest (first + 1)
  end.

(** Bucket capacity 4, keys 0, 1 of page 0 and 5, 6, 7 of page 1 inserted
    in this order, then key 0 removed: page 0 is left with one entry and
    absorbs the three of page 1. *)
Definition merged_index : SparseSet.t :=
  SparseSet.mk [7; 1; 5; 6; 7; 0; 0; 0] {[ 0 := [(1, 1); (1, 2); (2, 3); (3, 0)] ]} 4.

(** One key, 5, mapped to 7. *)
Definition singleton_index : SparseSet.t :=
  SparseSet.mk [5; 0; 0; 0] {[ 0 := [(5, 7)] ]} 1.

(** The storage after [Add(5, 77)] on the empty storage. *)
Definition one_record_store : PackedArray.t N :=
  PackedArray.mk
    (SparseSet.mk (<[0%nat := 5]> (replicate 1024 0)) {[ 0 := [(5, 0)] ]} 1)
    (DenseArray.mk [77] {[ 0 := 0 ]} [0]).

(** A bucket with offsets 1, 4 and 9. *)
Definition sample_bucket : Bucket.t := [(1, 10); (4, 40); (9, 90)].

(** Every bucket of the index has its keys in order. *)
Definition all_sorted (sparse : gmap N Bucket.t) : Prop :=
  ∀ i b, sparse !! i = Some b → sorted_by_offset b.

(** *** Runs of the sparse index *)

Inductive SparseSet_op : Set :=
| OpInsert (entity value : N)
| OpRemove (entity : N)
| OpClearAll.

Definition SparseSet_step (shift : N) (grow : N → N) (s : SparseSet.t)
    (o : SparseSet_op) : outcome SparseSet.t :=
  match o with
  | OpInsert entity value =>
      '(s', _) ← SparseSet.Insert shift grow s entity value; mret s'
  | OpRemove entity => SparseSet.Remove shift s entity
  | OpClearAll => mret (SparseSet.Clear s)
  end.

Fixpoint SparseSet_run (shift : N) (grow : N → N) (s : SparseSet.t)
    (ops : list SparseSet_op) : outcome SparseSet.t :=
  match ops with
  | [] => mret s
  | o :: rest => s' ← SparseSet_step shift grow s o; SparseSet_run shift grow s' rest
  end.

(** *** Runs of the packed record store *)

Inductive DenseArray_op (Comp : Type) : Type :=
| OpAdd (key : N) (component : Comp)
| OpDrop (key : N).
Arguments OpAdd {Comp} key component.
Arguments OpDrop {Comp} key.

Definition DenseArray_step {Comp : Type} (d : DenseArray.t Comp)
    (o : DenseArray_op Comp) : outcome (DenseArray.t Comp) :=
  match o with
  | OpAdd key component => DenseArray.Add d key component
  | OpDrop key => DenseArray.Remove d key
  end.

Fixpoint DenseArray_run {Comp : Type} (d : DenseArray.t Comp)
    (ops : list (DenseArray_op Comp)) : outcome (DenseArray.t Comp) :=
  match ops with
  | [] => mret d
  | o :: rest => d' ← DenseArray_step d o; DenseArray_run d' rest
  end.

Definition is_OpAdd {Comp : Type} (o : DenseArray_op Comp) : bool :=
  match o with OpAdd _ _ => true | OpDrop _ => false end.

(** Three records under the keys 7, 8 and 9. *)
Definition three_record_store : DenseArray.t N :=
  DenseArray.mk [70; 80; 90] {[ 7 := 0; 8 := 1; 9 := 2 ]} [7; 8; 9].

(** *** Runs of the slot allocator *)

(** What a run does to the counter [m_denseSize] when only its [Next] and
    [Clear] calls are looked at: [Next] counts up, [Clear] resets. *)
Definition Next_calls_since_Clear (ops : list IndirectionTable.op) (start : N) : N :=
  fold_left
    (λ counter o,
       match o with
       | IndirectionTable.OpNext => size_t_succ counter
       | IndirectionTable.OpClear => 0
       | _ => counter
       end)
    ops start.

(** Every identifier on the free list is a slot of the table. *)
Definition free_slots_allocated (s : IndirectionTable.t) : Prop :=
  Forall (λ i, i < IndirectionTable.Size s) (IndirectionTable.m_freeList s).

(** The table after [Next(); Erase(0); Next()]: slot 0 was recycled, the
    counter stands at 2 and the table has one slot. *)
Definition recycled_table : IndirectionTable.t :=
  IndirectionTable.mk [Some 1] [] 2.

(** Three slots, the middle one erased. *)
Definition three_slot_table : IndirectionTable.t :=
  IndirectionTable.mk [Some 0; None; Some 2] [1] 3.

(** The numbers of [Add] and of [Remove] calls in a run. *)
Definition DenseArray_adds {Comp : Type} (ops : list (DenseArray_op Comp)) : N :=
  N.of_nat (length (List.filter is_OpAdd ops)).

Definition DenseArray_drops {Comp : Type} (ops : list (DenseArray_op Comp)) : N :=
  N.of_nat (length (List.filter (λ o, negb (is_OpAdd o)) ops)).

(** *** The sparse index and its dense array as inverse maps *)

(** The value the index holds for a key, if it holds the key. *)
Definition SparseSet_position (shift : N) (s : SparseSet.t) (k : N) : option N :=
  if SparseSet.Contains shift s k then Some (SparseSet.Get shift 0 s k) else None.

(** The buckets are in order and within capacity, and the entries of the
    index are exactly the positions below [m_size] of the dense array:
    the state in which [Remove] can take the value of a key for its
    position in [m_dense]. *)
Definition SparseSet_wf (shift : N) (s : SparseSet.t) : Prop :=
  all_sorted (SparseSet.m_sparse s) ∧
  within_capacity shift (SparseSet.m_sparse s) ∧
  SparseSet.m_size s ≤ SparseSet.m_capacity s ∧
  SparseSet.m_capacity s < size_t_modulus ∧
  ∀ k i, SparseSet_position shift s k = Some i ↔
         i < SparseSet.m_size s ∧ SparseSet.m_dense s !! N.to_nat i = Some k.

(** Keys 5 and 9 at the dense positions 0 and 1. *)
Definition two_key_index : SparseSet.t :=
  SparseSet.mk [5; 9; 0; 0] {[ 0 := [(5, 0); (9, 1)] ]} 2.

(** *** Runs of [Add] on the keyed storage *)

Fixpoint PackedArray_add_all {Comp : Type} (shift : N) (grow : N → N)
    (p : PackedArray.t Comp) (es : list (N * Comp)) : outcome (PackedArray.t Comp) :=
  match es with
  | [] => mret p
  | (entity, component) :: rest =>
      p' ← PackedArray.Add shift grow p entity component;
      PackedArray_add_all shift grow p' rest
  end.

(** The state of a storage to which the entities of [es] have been added
    in this order, and nothing else done. *)
Definition PackedArray_holds {Comp : Type} (shift : N) (p : PackedArray.t Comp)
    (es : list (N * Comp)) : Prop :=
  let s := PackedArray.m_sparseSet p in
  let d := PackedArray.m_denseArray p in
  all_sorted (SparseSet.m_sparse s) ∧
  (∀ i b, SparseSet.m_sparse s !! i = Some b → Bucket.Size b ≤ N.of_nat (length es)) ∧
  SparseSet.m_size s = N.of_nat (length es) ∧
  SparseSet.m_capacity s = SparseSet.SPARSE_BUCKET_SIZE shift ∧
  (∀ k i, SparseSet_position shift s k = Some i ↔ es.*1 !! N.to_nat i = Some k) ∧
  DenseArray.m_components d = es.*2 ∧
  ∀ key, DenseArray.m_keyToIndex d !! key =
         if decide (key < N.of_nat (length es)) then Some key else None.

(* ===================================================================== *)
(** ** Facts about the binary search and single buckets *)
(* ===================================================================== *)

Section LowerBound.

Variables (keys : list N) (key : N).

(** The fuel never decides the result: any amount that is at least the
    window length gives the same position, so the loop always runs to
    its own exit [len = 0]. *)
Lemma lower_bound_loop_fuel (fuel fuel' first len : nat) :
  (len ≤ fuel)%nat → (len ≤ fuel')%nat →
  lower_bound_loop fuel keys key first len =
  lower_bound_loop fuel' keys key first len.
Proof.
  revert fuel' first len.
  induction fuel as [|fuel IH]; intros fuel' first len Hfuel Hfuel'.
  - assert (len = 0)%nat as -> by lia. by destruct fuel'.
  - destruct fuel' as [|fuel'].
    { assert (len = 0)%nat as -> by lia. reflexivity. }
    cbn [lower_bound_loop].
    destruct (Nat.eqb_spec len 0) as [-> | Hlen]; [reflexivity |].
    assert (len / 2 < len)%nat as Hhalf by (apply Nat.div_lt; lia).
    destruct (keys !! (first + len / 2)%nat) as [x|]; [| reflexivity].
    destruct (x <? key); apply IH; lia.
Qed.

(** The loop stays inside its window and stops on a position that is
    the end of the window or holds a key not less than [key].  No order
    on [keys] is assumed. *)
Lemma lower_bound_loop_bounds (fuel first len : nat) :
  (len ≤ fuel)%nat →
  (first + len ≤ length keys)%nat →
  (∀ x, keys !! (first + len)%nat = Some x → key ≤ x) →
  let r := lower_bound_loop fuel keys key first len in
  (first ≤ r ≤ first + len)%nat ∧ (∀ x, keys !! r = Some x → key ≤ x).
Proof.
  revert first len.
  induction fuel as [|fuel IH]; intros first len Hfuel Hin Hhi;
    cbn [lower_bound_loop].
  - assert (len = 0)%nat as -> by lia.
    rewrite Nat.add_0_r in Hhi. split; [lia | exact Hhi].
  - destruct (Nat.eqb_spec len 0) as [-> | Hlen].
    { rewrite Nat.add_0_r in Hhi. split; [lia | exact Hhi]. }
    assert (len / 2 < len)%nat as Hhalf by (apply Nat.div_lt; lia).
    destruct (keys !! (first + len / 2)%nat) as [x|] eqn:Hmid.
    + destruct (N.ltb_spec x key) as [Hlt | Hge].
      * destruct (IH (first + len / 2 + 1)%nat (len - len / 2 - 1)%nat) as [Hr Hx].
        { lia. }
        { lia. }
        { replace (first + len / 2 + 1 + (len - len / 2 - 1))%nat
            with (first + len)%nat by lia. exact Hhi. }
        split; [lia | exact Hx].
      * destruct (IH first (len / 2)%nat) as [Hr Hx].
        { lia. }
        { lia. }
        { intros y Hy. rewrite Hmid in Hy. injection Hy as <-. exact Hge. }
        split; [lia | exact Hx].
    + (* the window never leaves the array, so this branch reads nothing *)
      apply lookup_ge_None in Hmid. lia.
Qed.

Lemma lower_bound_le_length : (lower_bound keys key ≤ length keys)%nat.
Proof.
  unfold lower_bound.
  destruct (lower_bound_loop_bounds (length keys) 0 (length keys)) as [H _];
    [lia | simpl; lia | | simpl in H; lia].
  intros x Hx. apply lookup_lt_Some in Hx. simpl in Hx. lia.
Qed.

Lemma lower_bound_not_less (x : N) :
  keys !! lower_bound keys key = Some x → key ≤ x.
Proof.
  unfold lower_bound.
  destruct (lower_bound_loop_bounds (length keys) 0 (length keys)) as [_ H];
    [lia | simpl; lia | | exact (H x)].
  intros y Hy. apply lookup_lt_Some in Hy. simpl in Hy. lia.
Qed.

(** On keys in increasing order the loop finds the partition point:
    everything before the result is less than [key], nothing from the
    result on is. *)
Lemma sorted_lookup_lt (l : list N) (i j : nat) (x y : N) :
  StronglySorted N.lt l → (i < j)%nat → l !! i = Some x → l !! j = Some y → x < y.
Proof.
  intros Hs. revert i j. induction Hs as [|a l Hs IH Hall]; intros i j Hij Hi Hj.
  - by rewrite lookup_nil in Hi.
  - destruct j as [|j]; [lia |]. destruct i as [|i]; simpl in *.
    + injection Hi as <-. by eapply (Forall_lookup_1 _ _ _ _ Hall).
    + apply (IH i j); [lia | done | done].
Qed.

Lemma lower_bound_loop_partition (fuel first len : nat) :
  StronglySorted N.lt keys →
  (len ≤ fuel)%nat →
  (first + len ≤ length keys)%nat →
  (∀ i x, (i < first)%nat → keys !! i = Some x → x < key) →
  (∀ i x, (first + len ≤ i)%nat → keys !! i = Some x → key ≤ x) →
  let r := lower_bound_loop fuel keys key first len in
  (∀ i x, (i < r)%nat → keys !! i = Some x → x < key) ∧
  (∀ i x, (r ≤ i)%nat → keys !! i = Some x → key ≤ x).
Proof.
  intros Hs. revert first len.
  induction fuel as [|fuel IH]; intros first len Hfuel Hin Hlo Hhi;
    cbn [lower_bound_loop].
  - assert (len = 0)%nat as -> by lia.
    rewrite Nat.add_0_r in Hhi. by split.
  - destruct (Nat.eqb_spec len 0) as [-> | Hlen].
    { rewrite Nat.add_0_r in Hhi. by split. }
    assert (len / 2 < len)%nat as Hhalf by (apply Nat.div_lt; lia).
    destruct (keys !! (first + len / 2)%nat) as [x|] eqn:Hmid.
    + destruct (N.ltb_spec x key) as [Hlt | Hge].
      * apply IH; [lia | lia | |].
        -- intros i y Hi Hy.
           destruct (decide (i = first + len / 2)%nat) as [-> | Hne].
           ++ rewrite Hmid in Hy. by injection Hy as <-.
           ++ pose proof (sorted_lookup_lt keys i (first + len / 2) y x Hs
                            ltac:(lia) Hy Hmid). lia.
        -- intros i y Hi Hy. apply (Hhi i y); [lia | done].
      * apply IH; [lia | lia | done |].
        intros i y Hi Hy.
        destruct (decide (i = first + len / 2)%nat) as [-> | Hne].
        -- rewrite Hmid in Hy. by injection Hy as <-.
        -- pose proof (sorted_lookup_lt keys (first + len / 2) i x y Hs
                         ltac:(lia) Hmid Hy). lia.
    + apply lookup_ge_None in Hmid. lia.
Qed.

Lemma lower_bound_partition :
  StronglySorted N.lt keys →
  (∀ i x, (i < lower_bound keys key)%nat → keys !! i = Some x → x < key) ∧
  (∀ i x, (lower_bound keys key ≤ i)%nat → keys !! i = Some x → key ≤ x).
Proof.
  intros Hs. apply lower_bound_loop_partition; [done | lia | simpl; lia | |].
  - intros i x Hi. lia.
  - intros i x Hi Hx. apply lookup_lt_Some in Hx. simpl in Hi. lia.
Qed.

End LowerBound.

Section BucketFacts.

Implicit Types (b : Bucket.t) (key : N).

(** [Contains] and [Value] agree on every bucket, sorted or not. *)
Lemma Bucket_Contains_Value b key :
  Bucket.Contains b key = true ↔ is_Some (Bucket.Value b key).
Proof.
  unfold Bucket.Contains, Bucket.Value.
  pose proof (lower_bound_not_less (Bucket.m_keys b) key) as Hge.
  unfold Bucket.m_keys in *. rewrite list_lookup_fmap in *. revert Hge.
  destruct (b !! lower_bound b.*1 key) as [[k v]|]; simpl; intros Hge.
  - specialize (Hge k eq_refl). split.
    + intros Hc. apply negb_true_iff, N.ltb_ge in Hc.
      assert (k = key) as -> by lia. rewrite N.eqb_refl. eauto.
    + intros [w Hw]. destruct (N.eqb_spec k key) as [-> | ]; [| discriminate].
      apply negb_true_iff, N.ltb_irrefl.
  - split; [discriminate | intros [w Hw]; discriminate].
Qed.

Lemma Bucket_Contains_false_Value b key :
  Bucket.Contains b key = false → Bucket.Value b key = None.
Proof.
  intros Hc. destruct (Bucket.Value b key) as [v|] eqn:Hv; [| reflexivity].
  assert (Bucket.Contains b key = true) by (apply Bucket_Contains_Value; eauto).
  congruence.
Qed.

Lemma Bucket_singleton_Value key value :
  Bucket.Value [(key, value)] key = Some value.
Proof.
  unfold Bucket.Value, lower_bound. simpl.
  rewrite N.ltb_irrefl. simpl. by rewrite N.eqb_refl.
Qed.

Lemma Bucket_Insert_length capacity b key value :
  length (Bucket.Insert capacity b key value).1 =
    if capacity <=? Bucket.Size b then length b else S (length b).
Proof.
  unfold Bucket.Insert. destruct (capacity <=? Bucket.Size b); simpl; [reflexivity |].
  rewrite length_app. simpl. rewrite length_take, length_drop.
  pose proof (lower_bound_le_length (Bucket.m_keys b) key) as Hle.
  unfold Bucket.m_keys in *. rewrite length_fmap in Hle. lia.
Qed.

Lemma Bucket_Insert_within capacity b key value :
  Bucket.Size b ≤ capacity →
  Bucket.Size (Bucket.Insert capacity b key value).1 ≤ capacity.
Proof.
  intros Hb. unfold Bucket.Size at 1. unfold vsize.
  rewrite Bucket_Insert_length. revert Hb. unfold Bucket.Size, vsize.
  destruct (N.leb_spec capacity (N.of_nat (length b))); lia.
Qed.

Lemma Bucket_Remove_within capacity b key :
  Bucket.Size b ≤ capacity → Bucket.Size (Bucket.Remove b key) ≤ capacity.
Proof.
  unfold Bucket.Remove, Bucket.Size, vsize.
  destruct (Bucket.m_keys b !! _) as [k|]; [| done].
  destruct (k =? key); [| done].
  rewrite length_app, length_take, length_drop. lia.
Qed.

(** *** Which bucket operations keep the keys in order *)

Lemma Bucket_Insert_sorted capacity b key value :
  sorted_by_offset b →
  Bucket.Contains b key = false →
  sorted_by_offset (Bucket.Insert capacity b key value).1.
Proof.
  unfold sorted_by_offset, Bucket.Insert, Bucket.Contains. intros Hs Hc.
  destruct (capacity <=? Bucket.Size b); [exact Hs |]. cbn [fst].
  unfold Bucket.m_keys in *. rewrite fmap_app, fmap_cons, fmap_take, fmap_drop.
  cbn [fst].
  destruct (lower_bound_partition b.*1 key Hs) as [Hlo Hhi].
  set (r := lower_bound b.*1 key) in *.
  assert (Hgt : ∀ i x, (r ≤ i)%nat → b.*1 !! i = Some x → key < x).
  { intros i x Hi Hx. pose proof (Hhi i x Hi Hx) as Hle.
    destruct (b.*1 !! r) as [y|] eqn:Hr.
    - apply negb_false_iff, N.ltb_lt in Hc.
      destruct (decide (i = r)) as [-> | Hne]; [congruence |].
      pose proof (sorted_lookup_lt _ r i y x Hs ltac:(lia) Hr Hx). lia.
    - apply lookup_ge_None in Hr. apply lookup_lt_Some in Hx. lia. }
  rewrite <- (take_drop r b.*1) in Hs.
  apply StronglySorted_app in Hs as (Hcross & Htake & Hdrop).
  apply StronglySorted_app_2; [| exact Htake |].
  - intros x1 x2 H1 H2. apply elem_of_take in H1 as (i & Hi & Hlt).
    apply elem_of_cons in H2 as [-> | H2]; [by eapply Hlo |].
    apply Hcross; [| exact H2]. apply elem_of_take. eauto.
  - apply StronglySorted_cons. split; [| exact Hdrop].
    apply Forall_lookup. intros i x Hx. rewrite lookup_drop in Hx.
    apply (Hgt (r + i)%nat); [lia | exact Hx].
Qed.

Lemma Bucket_Remove_sorted b key :
  sorted_by_offset b → sorted_by_offset (Bucket.Remove b key).
Proof.
  unfold sorted_by_offset, Bucket.Remove. intros Hs.
  destruct (Bucket.m_keys b !! _) as [k|]; [| exact Hs].
  destruct (k =? key); [| exact Hs].
  unfold Bucket.m_keys in *. rewrite fmap_app, fmap_take, fmap_drop.
  set (r := lower_bound b.*1 key) in *.
  rewrite <- (take_drop r b.*1) in Hs.
  apply StronglySorted_app in Hs as (Hcross & Htake & Hdrop).
  replace (S r) with (r + 1)%nat by lia. rewrite <- drop_drop.
  apply StronglySorted_app_2; [| exact Htake |].
  - intros x1 x2 H1 H2. apply Hcross; [exact H1 |].
    apply list_elem_of_lookup in H2 as (i & Hi).
    rewrite lookup_drop in Hi. by eapply list_elem_of_lookup_2.
  - rewrite <- (take_drop 1 (drop r b.*1)) in Hdrop.
    by apply StronglySorted_app_1_r in Hdrop.
Qed.

Lemma Bucket_Distribute_sorted this other :
  sorted_by_offset this →
  sorted_by_offset (Bucket.Distribute this other).1 ∧
  sorted_by_offset (Bucket.Distribute this other).2.
Proof.
  unfold sorted_by_offset, Bucket.Distribute, Bucket.m_keys. cbn [fst snd]. intros Hs.
  rewrite fmap_take, fmap_drop.
  rewrite <- (take_drop (length this / 2) this.*1) in Hs.
  apply StronglySorted_app in Hs as (_ & Htake & Hdrop). by split.
Qed.

End BucketFacts.

(* ===================================================================== *)
(** ** The paged sparse index *)
(* ===================================================================== *)

Section SparseSetFacts.

Variable shift : N.
Variable grow : N → N.

Abbreviation CAP := (SparseSet.SPARSE_BUCKET_SIZE shift).
Abbreviation page k := (SparseSet.GetBucketIndexAndOffset shift k).1.
Abbreviation offset k := (SparseSet.GetBucketIndexAndOffset shift k).2.

Implicit Types (s : SparseSet.t) (k v : N) (sparse : gmap N Bucket.t).

Lemma SparseSet_Contains_bucket s k :
  SparseSet.Contains shift s k = true →
  ∃ b v, SparseSet.m_sparse s !! page k = Some b ∧
         Bucket.Contains b (offset k) = true ∧
         Bucket.Value b (offset k) = Some v.
Proof.
  unfold SparseSet.Contains. simpl.
  destruct (SparseSet.m_sparse s !! _) as [b|] eqn:Hb; [| discriminate].
  intros Hc. destruct (proj1 (Bucket_Contains_Value _ _) Hc) as [v Hv]. eauto.
Qed.


Lemma GetOrCreateBucket_existing sparse i b :
  sparse !! i = Some b → SparseSet.GetOrCreateBucket sparse i = (sparse, b).
Proof. unfold SparseSet.GetOrCreateBucket. by intros ->. Qed.

Lemma GetOrCreateBucket_lookup sparse i j :
  i ≠ j →
  (SparseSet.GetOrCreateBucket sparse i).1 !! j = sparse !! j.
Proof.
  intros Hne. unfold SparseSet.GetOrCreateBucket.
  destruct (sparse !! i); simpl; [reflexivity |]. by rewrite lookup_insert_ne.
Qed.

Lemma GetOrCreateBucket_within sparse i :
  within_capacity shift sparse →
  within_capacity shift (SparseSet.GetOrCreateBucket sparse i).1.
Proof.
  intros Hw j b. unfold SparseSet.GetOrCreateBucket.
  destruct (sparse !! i) eqn:Hi; simpl; [apply Hw |].
  rewrite lookup_insert. case_decide; [| apply Hw].
  intros [= <-]. unfold Bucket.Size, vsize. simpl. lia.
Qed.

(** [Insert] of a key whose offset is not in its bucket, when neither
    the bucket nor the dense array is full. *)
Lemma SparseSet_Insert_fresh s k v sparse b :
  SparseSet.GetOrCreateBucket (SparseSet.m_sparse s) (page k) = (sparse, b) →
  Bucket.Contains b (offset k) = false →
  Bucket.Size b < CAP →
  SparseSet.m_size s < SparseSet.m_capacity s →
  SparseSet.Insert shift grow s k v =
    Ok (SparseSet.mk (<[N.to_nat (SparseSet.m_size s) := k]> (SparseSet.m_dense s))
          (<[page k := (Bucket.Insert CAP b (offset k) v).1]> sparse)
          (size_t_succ (SparseSet.m_size s)),
        SparseSet.m_size s).
Proof.
  intros Hget Hc Hroom Hfree. unfold SparseSet.Insert, SparseSet.m_capacity in *.
  simpl in *. rewrite Hget, Hc.
  rewrite (proj2 (N.leb_gt _ _) Hroom). simpl.
  rewrite (proj2 (N.eqb_neq _ _)) by lia. simpl.
  unfold vset. by rewrite bool_decide_eq_true_2.
Qed.

Lemma SPARSE_BUCKET_SIZE_pos : 0 < CAP.
Proof.
  unfold SparseSet.SPARSE_BUCKET_SIZE. rewrite N.shiftl_1_l.
  apply N.neq_0_lt_0, N.pow_nonzero. discriminate.
Qed.



Lemma merge_or_rebalance_bound sparse i b :
  sparse !! i = Some b →
  ∃ b', SparseSet.merge_or_rebalance shift sparse i b !! i = Some b' ∧
    (N.shiftr CAP 1 ≤ Bucket.Size b' ∨
     SparseSet.merge_or_rebalance shift sparse i b !! (i + 1) = None).
Proof.
  intros Hb. unfold SparseSet.merge_or_rebalance.
  destruct (N.ltb_spec (Bucket.Size b) (N.shiftr CAP 1)) as [Hunder | Hok];
    [| exists b; split; [exact Hb | by left]].
  destruct (sparse !! (i + 1)) as [next|] eqn:Hnext;
    [| exists b; split; [exact Hb | by right]].
  destruct (N.leb_spec (Bucket.Size b + Bucket.Size next) CAP) as [Hfit | Hover].
  - simpl. exists (b ++ next). split.
    + rewrite lookup_delete_ne by lia. apply lookup_insert_eq.
    + right. apply lookup_delete_eq.
  - assert (Hhalf : N.shiftr CAP 1 ≤ Bucket.Size (Bucket.Rebalance b next).1).
    { revert Hover. unfold Bucket.Rebalance, Bucket.Size, vsize.
      rewrite N.shiftr_div_pow2, N.pow_1_r.
      destruct (Nat.ltb_spec (length b) ((length b + length next) / 2));
        cbn [fst]; intros Hover;
        rewrite ?length_app, length_take;
        halveN (SparseSet.SPARSE_BUCKET_SIZE shift); halve (length b + length next)%nat; lia. }
    destruct (Bucket.Rebalance b next) as [b' next'].
    exists b'. split; [| by left].
    rewrite lookup_insert_ne by lia. apply lookup_insert_eq.
Qed.

(** C6, as the code has it.  After a successful [Remove] of a present
    key, the bucket of that key's page still exists and either holds at
    least half the bucket capacity or has no bucket on the next page:
    an underfilled bucket is merged with the next page's bucket when
    both fit in one (the next page's bucket is erased) and is
    rebalanced to half of their combined size otherwise.  Nothing is
    said about any other bucket. *)
Theorem SparseSet_Remove_restores_touched_bucket s k s' :
  SparseSet.Contains shift s k = true →
  SparseSet.Remove shift s k = Ok s' →
  ∃ b', SparseSet.m_sparse s' !! page k = Some b' ∧
    (N.shiftr CAP 1 ≤ Bucket.Size b' ∨
     SparseSet.m_sparse s' !! (page k + 1) = None).
Proof.
  intros Hc. destruct (SparseSet_Contains_bucket s k Hc) as (b & v & Hb & _ & Hv).
  unfold SparseSet.Remove. simpl in *.
  rewrite (GetOrCreateBucket_existing _ _ _ Hb), Hv.
  match goal with |- context [mbind _ ?m] => destruct m as [[dense sparse]|] end;
    simpl; [| discriminate].
  intros [= <-]. simpl. apply merge_or_rebalance_bound, lookup_insert_eq.
Qed.

(** *** Every operation keeps the buckets within capacity *)

Lemma within_capacity_insert sparse i b :
  within_capacity shift sparse → Bucket.Size b ≤ CAP →
  within_capacity shift (<[i := b]> sparse).
Proof.
  intros Hw Hb j bj. rewrite lookup_insert. case_decide; [| apply Hw].
  by intros [= <-].
Qed.

Lemma GetOrCreateBucket_self sparse i :
  (SparseSet.GetOrCreateBucket sparse i).1 !! i =
    Some (SparseSet.GetOrCreateBucket sparse i).2.
Proof.
  unfold SparseSet.GetOrCreateBucket.
  destruct (sparse !! i) eqn:Hi; simpl; [exact Hi | apply lookup_insert_eq].
Qed.

Lemma SparseSet_Insert_within s k v s' r :
  within_capacity shift (SparseSet.m_sparse s) →
  SparseSet.Insert shift grow s k v = Ok (s', r) →
  within_capacity shift (SparseSet.m_sparse s').
Proof.
  intros Hw. unfold SparseSet.Insert. simpl.
  pose proof (GetOrCreateBucket_within _ (N.shiftr k shift) Hw) as Hw1.
  pose proof (GetOrCreateBucket_self (SparseSet.m_sparse s) (N.shiftr k shift)) as Hself.
  destruct (SparseSet.GetOrCreateBucket _ _) as [sp b]. simpl in *.
  pose proof (Hw1 _ _ Hself) as Hb.
  destruct (Bucket.Contains b _); [by intros [= <- _] |].
  destruct (CAP <=? Bucket.Size b).
  - pose proof (GetOrCreateBucket_within _ (N.shiftr k shift + 1) Hw1) as Hw2.
    destruct (SparseSet.GetOrCreateBucket sp _) as [sp2 nb]. simpl in *.
    match goal with |- context [vset ?d ?i k] => destruct (vset d i k) end;
      simpl; [| discriminate].
    intros [= <- _]. simpl.
    assert (Bucket.Size (take (length b / 2) b) ≤ CAP).
    { unfold Bucket.Size, vsize in *. rewrite length_take. lia. }
    assert (Bucket.Size (drop (length b / 2) b) ≤ CAP).
    { unfold Bucket.Size, vsize in *. rewrite length_drop. lia. }
    repeat apply within_capacity_insert; try done.
    by apply Bucket_Insert_within.
  - match goal with |- context [vset ?d ?i k] => destruct (vset d i k) end;
      simpl; [| discriminate].
    intros [= <- _]. simpl. apply within_capacity_insert; [done |].
    by apply Bucket_Insert_within.
Qed.

Lemma merge_or_rebalance_within sparse i b :
  within_capacity shift sparse → Bucket.Size b ≤ CAP →
  within_capacity shift (SparseSet.merge_or_rebalance shift sparse i b).
Proof.
  intros Hw Hb. unfold SparseSet.merge_or_rebalance.
  destruct (_ <? _); [| done].
  destruct (sparse !! (i + 1)) as [next|] eqn:Hnext; [| done].
  pose proof (Hw _ _ Hnext) as Hn.
  destruct (N.leb_spec (Bucket.Size b + Bucket.Size next) CAP) as [Hfit | Hover].
  - simpl. intros j bj Hj. apply lookup_delete_Some in Hj as [_ Hj]. revert Hj.
    apply within_capacity_insert; [done |].
    unfold Bucket.Size, vsize in *. rewrite length_app. lia.
  - unfold Bucket.Rebalance, Bucket.Size, vsize in *.
    destruct (Nat.ltb_spec (length b) ((length b + length next) / 2));
      repeat apply within_capacity_insert; try done;
      unfold Bucket.Size, vsize;
      rewrite ?length_app, ?length_take, ?length_drop;
      halve (length b + length next)%nat; lia.
Qed.

Lemma swap_with_last_within dense sparse size removedIndex dense' sparse' :
  within_capacity shift sparse →
  SparseSet.swap_with_last shift dense sparse size removedIndex = Ok (dense', sparse') →
  within_capacity shift sparse'.
Proof.
  intros Hw. unfold SparseSet.swap_with_last.
  destruct (vget dense _) as [last|]; simpl; [| discriminate].
  destruct (vset dense _ _); simpl; [| discriminate].
  destruct (sparse !! _) as [lastBucket|] eqn:Hl; [| discriminate].
  intros [= _ <-]. apply within_capacity_insert; [done |].
  apply Bucket_Insert_within, Bucket_Remove_within. by eapply Hw.
Qed.

Lemma SparseSet_Remove_within s k s' :
  within_capacity shift (SparseSet.m_sparse s) →
  SparseSet.Remove shift s k = Ok s' →
  within_capacity shift (SparseSet.m_sparse s').
Proof.
  intros Hw. unfold SparseSet.Remove. simpl.
  pose proof (GetOrCreateBucket_within _ (N.shiftr k shift) Hw) as Hw1.
  pose proof (GetOrCreateBucket_self (SparseSet.m_sparse s) (N.shiftr k shift)) as Hself.
  destruct (SparseSet.GetOrCreateBucket _ _) as [sp b]. simpl in *.
  pose proof (Hw1 _ _ Hself) as Hb.
  destruct (Bucket.Value b _) as [removedIndex|]; [| by intros [= <-]].
  destruct (removedIndex =? _).
  - simpl. intros [= <-]. simpl. rewrite Hself. simpl.
    apply merge_or_rebalance_within; [| by apply Bucket_Remove_within].
    apply within_capacity_insert; [done | by apply Bucket_Remove_within].
  - destruct (SparseSet.swap_with_last _ _ _ _ _) as [[dense' sparse']|] eqn:Hs;
      simpl; [| discriminate].
    pose proof (swap_with_last_within _ _ _ _ _ _ Hw1 Hs) as Hw2.
    intros [= <-]. simpl.
    assert (Bucket.Size (default b (sparse' !! N.shiftr k shift)) ≤ CAP) as Hd.
    { destruct (sparse' !! N.shiftr k shift) eqn:Hk; simpl; [by eapply Hw2 | done]. }
    apply merge_or_rebalance_within; [| by apply Bucket_Remove_within].
    apply within_capacity_insert; [done | by apply Bucket_Remove_within].
Qed.



End SparseSetFacts.

(** *** Concrete runs of the sparse index *)

Lemma merged_index_reached :
  (s ← insert_all 2 default_grow (SparseSet.create 8) [0; 1; 5; 6; 7] 0;
   SparseSet.Remove 2 s 0) = Ok merged_index.
Proof. vm_compute. reflexivity. Qed.





(** C6, the bound of the specification on the code: keys 0, 1024 and 1025
    are inserted and 1025 removed; bucket 0 holds one entry out of 1024
    although bucket 1 above it is occupied. *)
Lemma SparseSet_Remove_leaves_sparse_page :
  ∃ s s', insert_all 10 default_grow (SparseSet.create 1024) [0; 1024; 1025] 0 = Ok s ∧
          SparseSet.Remove 10 s 1025 = Ok s' ∧
          ¬ spec_occupancy_bound 10 s'.
Proof.
  eexists. eexists. split; [vm_compute; reflexivity |].
  split; [vm_compute; reflexivity |].
  intros Hbound.
  assert (H : N.shiftr (SparseSet.SPARSE_BUCKET_SIZE 10) 1 ≤ Bucket.Size [(0, 0)]).
  { apply (Hbound 0); [vm_compute; reflexivity |].
    exists 1, [(0, 1)]. split; [lia |]. split; [vm_compute; reflexivity | discriminate]. }
  vm_compute in H. by apply H.
Qed.

Lemma SparseSet_Remove_restores_touched_bucket_witness :
  ∃ b', SparseSet.m_sparse merged_index !! 0 = Some b' ∧
    (N.shiftr 4 1 ≤ Bucket.Size b' ∨ SparseSet.m_sparse merged_index !! (0 + 1) = None).
Proof.
  apply (SparseSet_Remove_restores_touched_bucket 2
           (SparseSet.mk [0; 1; 5; 6; 7; 0; 0; 0]
              {[ 0 := [(0, 0); (1, 1)]; 1 := [(1, 2); (2, 3); (3, 4)] ]} 5)
           0 merged_index);
    vm_compute; reflexivity.
Defined.

(** C7.  On an index without any bucket, [Remove] of key 0, which is not
    present, succeeds and leaves an empty bucket on page 0 behind: the
    set of existing buckets is not what it was. *)
Theorem SparseSet_Remove_absent_creates_bucket :
  let s := SparseSet.create 1024 in
  SparseSet.Contains 10 s 0 = false ∧
  dom (SparseSet.m_sparse s) = ∅ ∧
  ∃ s', SparseSet.Remove 10 s 0 = Ok s' ∧
        SparseSet.m_sparse s' !! 0 = Some Bucket.empty ∧
        dom (SparseSet.m_sparse s') = {[ 0 ]}.
Proof.
  split; [reflexivity |]. split; [apply dom_empty_L |].
  eexists. split; [vm_compute; reflexivity |].
  split; [vm_compute; reflexivity |].
  change (dom (<[0 := Bucket.empty]> (∅ : gmap N Bucket.t)) = ({[0]} : gset N)).
  rewrite dom_insert_L, dom_empty_L. set_solver.
Qed.

(** C9.  Keys 2, 1024 and 3 are inserted, every bucket is in increasing
    order; key 3 is removed, bucket 0 is left with one entry and [Merge]
    appends the entry of bucket 1 to it: its keys are now 2, 0, out of
    order, and key 1024 is no longer found. *)
Theorem SparseSet_Merge_breaks_bucket_order :
  ∃ s s', insert_all 10 default_grow (SparseSet.create 1024) [2; 1024; 3] 0 = Ok s ∧
          SparseSet.m_sparse s !! 0 = Some [(2, 0); (3, 2)] ∧
          SparseSet.m_sparse s !! 1 = Some [(0, 1)] ∧
          sorted_by_offset [(2, 0); (3, 2)] ∧ sorted_by_offset [(0, 1)] ∧
          SparseSet.Contains 10 s 1024 = true ∧
          SparseSet.Remove 10 s 3 = Ok s' ∧
          SparseSet.m_sparse s' !! 0 = Some [(2, 0); (0, 1)] ∧
          ¬ sorted_by_offset [(2, 0); (0, 1)] ∧
          SparseSet.Contains 10 s' 1024 = false.
Proof.
  eexists. eexists. split; [vm_compute; reflexivity |].
  split; [vm_compute; reflexivity |]. split; [vm_compute; reflexivity |].
  split; [repeat constructor |]. split; [repeat constructor |].
  split; [vm_compute; reflexivity |]. split; [vm_compute; reflexivity |].
  split; [vm_compute; reflexivity |]. split; [| vm_compute; reflexivity].
  unfold sorted_by_offset. simpl. rewrite StronglySorted_cons, Forall_cons.
  intros [[Hlt _] _]. by apply N.nlt_0_r in Hlt.
Qed.

(* ===================================================================== *)
(** ** The packed record store *)
(* ===================================================================== *)

Section DenseArrayFacts.

Context {Comp : Type}.

Implicit Types (d : DenseArray.t Comp) (key i : N).

Lemma size_t_pred_pos (a : N) :
  0 < a < size_t_modulus → size_t_pred a = a - 1.
Proof.
  intros Ha. unfold size_t_pred.
  replace (a + size_t_modulus - 1) with (a - 1 + 1 * size_t_modulus) by lia.
  rewrite N.Div0.mod_add. apply N.mod_small. lia.
Qed.

Lemma removelast_take {A} (l : list A) : removelast l = take (length l - 1) l.
Proof. rewrite removelast_firstn_len. f_equal. lia. Qed.

Lemma last_is_Some {A} (l : list A) : (0 < length l)%nat → is_Some (last l).
Proof.
  intros Hl. rewrite last_lookup. apply lookup_lt_is_Some. lia.
Qed.

(** Swap-remove on the store's own keys.  Removing a key that is not at
    the last position moves the last record, and only it, into the
    vacated position, re-points the moved key there, and [Get] of the
    moved key returns its record. *)
Lemma DenseArray_Remove_swaps d key i :
  DenseArray_wf d →
  DenseArray.m_keyToIndex d !! key = Some i →
  i ≠ DenseArray.Size d - 1 →
  ∃ lastKey lastRecord d',
    last (DenseArray.m_indexToKey d) = Some lastKey ∧
    last (DenseArray.m_components d) = Some lastRecord ∧
    DenseArray.Remove d key = Ok d' ∧
    DenseArray.m_components d' =
      <[N.to_nat i := lastRecord]> (removelast (DenseArray.m_components d)) ∧
    DenseArray.m_indexToKey d' =
      <[N.to_nat i := lastKey]> (removelast (DenseArray.m_indexToKey d)) ∧
    DenseArray.m_keyToIndex d' =
      delete key (<[lastKey := i]> (DenseArray.m_keyToIndex d)) ∧
    DenseArray.Get d' lastKey = Ok lastRecord.
Proof.
  intros (Hlen & Hfit & Hinv) Hkey Hnotlast.
  destruct d as [comps k2i i2k]. unfold DenseArray.Size, vsize in *. simpl in *.
  pose proof (proj1 (Hinv key i) Hkey) as Hi.
  pose proof (lookup_lt_Some _ _ _ Hi) as Hlt.
  destruct (last_is_Some i2k ltac:(lia)) as [lastKey HlastKey].
  destruct (last_is_Some comps ltac:(lia)) as [lastRecord HlastRecord].
  destruct (lookup_lt_is_Some_2 comps (N.to_nat i) ltac:(lia)) as [removed Hremoved].
  exists lastKey, lastRecord.
  assert (Hpred : size_t_pred (N.of_nat (length comps)) = N.of_nat (length comps) - 1).
  { apply size_t_pred_pos. lia. }
  assert (HlastKey_ne : lastKey ≠ key).
  { intros ->. rewrite last_lookup in HlastKey.
    assert (k2i !! key = Some (N.of_nat (pred (length i2k)))) as Hk.
    { apply Hinv. by rewrite Nat2N.id. }
    rewrite Hkey in Hk. injection Hk as ->. lia. }
  unfold DenseArray.Remove. cbn [DenseArray.m_keyToIndex DenseArray.m_components
    DenseArray.m_indexToKey]. unfold vget, vpop, vset, vsize. rewrite Hkey, Hpred.
  rewrite (proj2 (N.eqb_neq _ _)) by lia.
  rewrite Hremoved, HlastRecord, HlastKey.
  repeat first
    [ progress cbn [mbind outcome_bind mret outcome_ret]
    | rewrite length_insert
    | rewrite Hpred
    | rewrite bool_decide_eq_true_2 by lia ].
  destruct (last_is_Some (<[N.to_nat (N.of_nat (length comps) - 1) := removed]>
                            (<[N.to_nat i := lastRecord]> comps))
              ltac:(rewrite !length_insert; lia)) as [x ->].
  destruct (last_is_Some (<[N.to_nat i := lastKey]> i2k)
              ltac:(rewrite !length_insert; lia)) as [y ->].
  cbn [mbind outcome_bind mret outcome_ret].
  eexists. split; [reflexivity |]. split; [reflexivity |]. split; [reflexivity |].
  cbn [DenseArray.m_keyToIndex DenseArray.m_components DenseArray.m_indexToKey].
  assert (Hcomps :
    removelast (<[N.to_nat (N.of_nat (length comps) - 1) := removed]>
                  (<[N.to_nat i := lastRecord]> comps)) =
    <[N.to_nat i := lastRecord]> (removelast comps)).
  { rewrite !removelast_take, !length_insert.
    rewrite take_insert_ge by lia. apply take_insert_lt. lia. }
  assert (Hkeys :
    removelast (<[N.to_nat i := lastKey]> i2k) =
    <[N.to_nat i := lastKey]> (removelast i2k)).
  { rewrite !removelast_take, !length_insert. apply take_insert_lt. lia. }
  split; [exact Hcomps |]. split; [exact Hkeys |]. split; [reflexivity |].
  unfold DenseArray.Get. cbn [DenseArray.m_keyToIndex DenseArray.m_components].
  rewrite lookup_delete_ne by done. rewrite lookup_insert_eq.
  unfold vget. rewrite Hcomps, list_lookup_insert_eq; [reflexivity |].
  rewrite removelast_take, length_take. lia.
Qed.

End DenseArrayFacts.

(* ===================================================================== *)
(** ** The keyed packed storage *)
(* ===================================================================== *)

Section PackedArrayFacts.

Context {Comp : Type}.
Variable shift : N.
Variable grow : N → N.
Variable inv : N.

Abbreviation page k := (SparseSet.GetBucketIndexAndOffset shift k).1.
Abbreviation offset k := (SparseSet.GetBucketIndexAndOffset shift k).2.

Implicit Types (p : PackedArray.t Comp) (k : N).

(** Both [Get] and [Remove] test the looked-up position for truth. *)
Lemma PackedArray_index_zero p k :
  SparseSet.Get shift inv (PackedArray.m_sparseSet p) k = 0 →
  PackedArray.Get shift inv p k = Ok SharedDummy ∧
  PackedArray.Remove shift grow inv p k = Ok p.
Proof.
  intros Hget. unfold PackedArray.Get, PackedArray.Remove. by rewrite Hget.
Qed.



(** C10.  A present key that the sparse index maps to dense position 0
    is treated as absent: [Get] hands out the shared static dummy, not
    the key's record, and [Remove] returns at once with the storage as
    it was. *)
Theorem PackedArray_position_zero_is_absent p k b :
  SparseSet.m_sparse (PackedArray.m_sparseSet p) !! page k = Some b →
  Bucket.Value b (offset k) = Some 0 →
  SparseSet.Contains shift (PackedArray.m_sparseSet p) k = true ∧
  PackedArray.Get shift inv p k = Ok SharedDummy ∧
  PackedArray.Remove shift grow inv p k = Ok p.
Proof.
  intros Hb Hv. split.
  - unfold SparseSet.Contains. simpl in *. rewrite Hb.
    apply Bucket_Contains_Value. eauto.
  - apply PackedArray_index_zero. unfold SparseSet.Get. simpl in *.
    by rewrite Hb, Hv.
Qed.


(** C2.  The first record ever added cannot be read back: [Add] of any
    key [k] with record [r] to the empty storage stores [r] at dense
    position 0, and [Get k] then returns the shared static dummy and
    not [r]. *)
Theorem PackedArray_first_Add_not_read_back k (r : Comp) :
  SparseSet.Contains shift (PackedArray.m_sparseSet (PackedArray.empty shift (Comp:=Comp))) k
    = false ∧
  ∃ p, PackedArray.Add shift grow (PackedArray.empty shift) k r = Ok p ∧
       SparseSet.Contains shift (PackedArray.m_sparseSet p) k = true ∧
       DenseArray.GetByIndex (PackedArray.m_denseArray p) 0 = Ok r ∧
       PackedArray.Get shift inv p k = Ok SharedDummy.
Proof.
  pose proof (SPARSE_BUCKET_SIZE_pos shift) as Hpos.
  split; [reflexivity |].
  assert (Hadd : PackedArray.Add shift grow (PackedArray.empty shift) k r =
    Ok (PackedArray.mk
          (SparseSet.mk
             (<[0%nat := k]> (replicate (N.to_nat (SparseSet.SPARSE_BUCKET_SIZE shift)) 0))
             (<[page k := [(offset k, 0)]]> (<[page k := Bucket.empty]> ∅))
             (size_t_succ 0))
          (DenseArray.mk [r] (<[0 := 0]> ∅) [0]))).
  { unfold PackedArray.Add, PackedArray.empty.
    cbn [PackedArray.m_sparseSet PackedArray.m_denseArray].
    change (SparseSet.Contains shift (SparseSet.create _) k) with false. cbv iota.
    rewrite (SparseSet_Insert_fresh shift grow _ k _
               (<[page k := Bucket.empty]> ∅) Bucket.empty).
    - reflexivity.
    - reflexivity.
    - reflexivity.
    - exact Hpos.
    - unfold SparseSet.m_capacity, SparseSet.create, vsize. simpl.
      rewrite length_replicate, N2Nat.id. exact Hpos. }
  eexists. split; [exact Hadd |].
  pose proof (Bucket_singleton_Value (offset k) 0) as Hv.
  split.
  - unfold SparseSet.Contains, SparseSet.GetBucketIndexAndOffset in *.
    cbn [PackedArray.m_sparseSet SparseSet.m_sparse fst snd] in *.
    rewrite lookup_insert_eq. apply Bucket_Contains_Value. eauto.
  - split; [reflexivity |].
    apply PackedArray_index_zero.
    unfold SparseSet.Get, SparseSet.GetBucketIndexAndOffset in *.
    cbn [PackedArray.m_sparseSet SparseSet.m_sparse fst snd] in *.
    by rewrite lookup_insert_eq, Hv.
Qed.

End PackedArrayFacts.

(** *** Concrete runs of the keyed packed storage *)

Lemma one_record_store_reached :
  PackedArray.Add 10 default_grow (PackedArray.empty 10) 5 77 = Ok one_record_store.
Proof. vm_compute. reflexivity. Qed.

Lemma PackedArray_position_zero_is_absent_witness :
  SparseSet.Contains 10 (PackedArray.m_sparseSet one_record_store) 5 = true ∧
  PackedArray.Get 10 (size_t_modulus - 1) one_record_store 5 = Ok SharedDummy ∧
  PackedArray.Remove 10 default_grow (size_t_modulus - 1) one_record_store 5
    = Ok one_record_store.
Proof.
  apply (PackedArray_position_zero_is_absent 10 default_grow (size_t_modulus - 1)
           one_record_store 5 [(5, 0)]);
    vm_compute; reflexivity.
Defined.



(** C1.  Keys 10, 11 and 12 are added with records [a], [b], [c] and sit at
    dense positions 0, 1, 2.  [Remove(11)] moves [c] into position 1 of
    the dense array, but the sparse index still maps key 12 to position 2:
    the key [Remove] re-registers is the dense array's own key 2, not
    entity 12.  [Get(12)] then stops on the "Index out of range"
    assertion instead of returning [c]. *)
Theorem PackedArray_Remove_loses_swapped_key {Comp : Type} (a b c : Comp) (inv : N) :
  ∃ p3 p,
    (p1 ← PackedArray.Add 10 default_grow (PackedArray.empty 10) 10 a;
     p2 ← PackedArray.Add 10 default_grow p1 11 b;
     PackedArray.Add 10 default_grow p2 12 c) = Ok p3 ∧
    PackedArray.Get 10 inv p3 11 = Ok (Stored 1 b) ∧
    PackedArray.Get 10 inv p3 12 = Ok (Stored 2 c) ∧
    PackedArray.Remove 10 default_grow inv p3 11 = Ok p ∧
    DenseArray.m_components (PackedArray.m_denseArray p) = [a; c] ∧
    SparseSet.Get 10 inv (PackedArray.m_sparseSet p) 12 = 2 ∧
    SparseSet.Get 10 inv (PackedArray.m_sparseSet p) 2 = 1 ∧
    PackedArray.Get 10 inv p 12 = Abort OutOfRange.
Proof.
  eexists. eexists. split; [vm_compute; reflexivity |].
  repeat split; vm_compute; reflexivity.
Qed.

(* ===================================================================== *)
(** ** The slot allocator *)
(* ===================================================================== *)

Section IndirectionTableFacts.

Import IndirectionTable.

Implicit Types (s : IndirectionTable.t) (index : N).

(** [Erase] of an allocated slot marks it [Undirected] and puts it at
    the back of the free list. *)
Lemma IndirectionTable_Erase_allocated s index :
  index < Size s →
  Erase s index =
    Ok (mk (<[N.to_nat index := Undirected]> (m_indirection s))
           (m_freeList s ++ [index]) (m_denseSize s)).
Proof.
  intros Hin. unfold Erase, assert, vset, Size in *.
  by rewrite bool_decide_eq_true_2.
Qed.

(** With a free list that is not empty, [Next] hands out the slot at its
    back, the most recently erased one, and mints no slot. *)
Lemma IndirectionTable_Next_recycles s index :
  last (m_freeList s) = Some index →
  index < Size s →
  ∃ s', Next s = Ok (s', index) ∧ Size s' = Size s ∧
        m_indirection s' !! N.to_nat index = Some (Some (m_denseSize s)) ∧
        m_freeList s' = removelast (m_freeList s).
Proof.
  intros Hlast Hin. unfold Next, vset, Size in *. rewrite Hlast.
  rewrite bool_decide_eq_true_2 by done. simpl. eexists. split; [reflexivity |].
  unfold vsize in *. simpl. rewrite length_insert. split; [reflexivity |].
  split; [| reflexivity]. apply list_lookup_insert_eq. lia.
Qed.

(** X5.  From any table, erasing a directed slot takes one slot out of
    the live ones and leaves [DenseSize] where it was: after it
    [DenseSize] is no longer the number of live slots. *)
Lemma IndirectionTable_Erase_directed s index d :
  m_indirection s !! N.to_nat index = Some (Some d) →
  ∃ s', Erase s index = Ok s' ∧
        live_slots s' + 1 = live_slots s ∧
        DenseSize s' = DenseSize s.
Proof.
  intros Hd. pose proof (lookup_lt_Some _ _ _ Hd) as Hlt.
  eexists. split; [apply IndirectionTable_Erase_allocated; unfold Size, vsize; lia |].
  split; [| reflexivity]. unfold live_slots, vsize. simpl.
  rewrite insert_take_drop by done.
  rewrite <- (take_drop_middle _ _ _ Hd) at 3.
  rewrite !filter_app, !length_app.
  rewrite filter_cons_False by (intros H; by apply H).
  rewrite filter_cons_True by discriminate. simpl. lia.
Qed.

(** C4.  One slot is allocated and erased: no slot is directed any more,
    and [DenseSize] still answers 1.  [Erase] never changes
    [m_denseSize]. *)
Theorem IndirectionTable_Erase_keeps_denseSize :
  ∃ s, run empty [OpNext; OpErase 0] = Ok s ∧
       m_indirection s = [Undirected] ∧
       m_freeList s = [0] ∧
       live_slots s = 0 ∧
       DenseSize s = 1.
Proof. eexists. repeat split; vm_compute; reflexivity. Qed.

End IndirectionTableFacts.

(* ===================================================================== *)
(** ** The slot allocator over runs of calls *)
(* ===================================================================== *)

Section IndirectionTableRuns.

Import IndirectionTable.

Implicit Types (s : IndirectionTable.t) (index : N) (ops : list op).

Lemma vset_in_range {A} (v : list A) (i : N) (a : A) :
  i < vsize v → vset v i a = Ok (<[N.to_nat i := a]> v).
Proof. intros Hi. unfold vset. by rewrite bool_decide_eq_true_2. Qed.

Lemma vsize_insert {A} (v : list A) (n : nat) (a : A) : vsize (<[n := a]> v) = vsize v.
Proof. unfold vsize. by rewrite length_insert. Qed.

(** X1.  [Put] on an allocated slot is read back by [At]; no other slot,
    neither the counter nor the free list changes, so a slot that was
    erased is directed again while it still waits on the free list. *)
Theorem IndirectionTable_Put_At s index denseIndex :
  index < Size s →
  ∃ s', Put s index denseIndex = Ok s' ∧
        At s' index = Ok (Some denseIndex) ∧
        (∀ other, other ≠ index → At s' other = At s other) ∧
        Size s' = Size s ∧
        DenseSize s' = DenseSize s ∧
        m_freeList s' = m_freeList s.
Proof.
  intros Hin. unfold Put, At, assert, Size in *.
  rewrite bool_decide_eq_true_2 by done. cbn [mbind outcome_bind].
  rewrite vset_in_range by done. cbn [mbind outcome_bind mret outcome_ret].
  eexists. split; [reflexivity |]. cbn [m_indirection m_freeList].
  rewrite vsize_insert. split.
  - rewrite bool_decide_eq_true_2 by done. cbn [mbind outcome_bind].
    unfold vget. rewrite list_lookup_insert_eq; [reflexivity |].
    unfold vsize in Hin. lia.
  - split; [| done]. intros other Hne.
    destruct (bool_decide (other < vsize (m_indirection s))); [| reflexivity].
    cbn [mbind outcome_bind]. unfold vget.
    rewrite list_lookup_insert_ne; [reflexivity |]. lia.
Qed.

Lemma IndirectionTable_Put_At_witness :
  ∃ s', Put three_slot_table 1 7 = Ok s' ∧
        At s' 1 = Ok (Some 7) ∧
        (∀ other, other ≠ 1 → At s' other = At three_slot_table other) ∧
        Size s' = Size three_slot_table ∧
        DenseSize s' = DenseSize three_slot_table ∧
        m_freeList s' = m_freeList three_slot_table.
Proof. apply (IndirectionTable_Put_At three_slot_table 1 7). reflexivity. Defined.

(** [Next], [Erase], [Put] and [Clear] keep the free list inside the
    table, and with such a free list none of them reads or writes outside
    [m_indirection]. *)
Lemma step_free_slots_allocated s o s' :
  free_slots_allocated s → step s o = Ok s' → free_slots_allocated s'.
Proof.
  unfold free_slots_allocated, Size. intros Hfree.
  destruct o as [| index | sparseIndex denseIndex |]; simpl.
  - unfold Next. destruct (last (m_freeList s)) as [index|] eqn:Hlast.
    + unfold vset. case_bool_decide; simpl; [| discriminate].
      intros [= <-]. simpl. rewrite vsize_insert, removelast_take.
      by apply Forall_take.
    + simpl. intros [= <-]. simpl. eapply Forall_impl; [exact Hfree |].
      simpl. intros i Hi. unfold vsize in *. rewrite length_app. simpl. lia.
  - unfold Erase, assert. case_bool_decide as Hin; simpl; [| discriminate].
    rewrite vset_in_range by done. simpl. intros [= <-]. simpl.
    rewrite vsize_insert. apply Forall_app. split; [done |].
    by apply Forall_singleton.
  - unfold Put, assert. case_bool_decide as Hin; simpl; [| discriminate].
    rewrite vset_in_range by done. simpl. intros [= <-]. simpl.
    by rewrite vsize_insert.
  - intros [= <-]. simpl. constructor.
Qed.

Lemma step_stops_on_range_assert s o c :
  free_slots_allocated s → step s o = Abort c → c = OutOfRange.
Proof.
  unfold free_slots_allocated, Size. intros Hfree.
  destruct o as [| index | sparseIndex denseIndex |]; simpl.
  - unfold Next. destruct (last (m_freeList s)) as [index|] eqn:Hlast;
      [| discriminate].
    rewrite vset_in_range; [discriminate |].
    apply last_Some_elem_of in Hlast.
    by apply (proj1 (Forall_forall _ _) Hfree).
  - unfold Erase, assert. case_bool_decide as Hin; simpl; [| congruence].
    rewrite vset_in_range by done. discriminate.
  - unfold Put, assert. case_bool_decide as Hin; simpl; [| congruence].
    rewrite vset_in_range by done. discriminate.
  - discriminate.
Qed.

Lemma run_free_slots_allocated ops s s' :
  free_slots_allocated s → run s ops = Ok s' → free_slots_allocated s'.
Proof.
  revert s. induction ops as [|o ops IH]; intros s Hfree; simpl.
  - by intros [= <-].
  - destruct (step s o) as [s1|] eqn:Hstep; simpl; [| discriminate].
    apply IH. by eapply step_free_slots_allocated.
Qed.

(** X2.  Whatever calls are made on a fresh table, the only way the run
    can stop is the range assertion of [Erase] or [Put]: the free list
    never holds an identifier outside the table, so [Next] never writes
    out of bounds.  A run that completes leaves such a free list. *)
Theorem IndirectionTable_run_stops_only_on_range_assert ops :
  (∀ c, run empty ops = Abort c → c = OutOfRange) ∧
  (∀ s, run empty ops = Ok s → free_slots_allocated s).
Proof.
  assert (Hempty : free_slots_allocated empty) by constructor.
  split; [| intros s; by apply run_free_slots_allocated].
  revert Hempty. generalize empty.
  induction ops as [|o ops IH]; intros s Hfree c; simpl; [discriminate |].
  destruct (step s o) as [s1|c1] eqn:Hstep; simpl.
  - apply IH. by eapply step_free_slots_allocated.
  - intros [= <-]. by eapply step_stops_on_range_assert.
Qed.

(** X3.  [DenseSize] after a run is fixed by the run's [Next] and [Clear]
    calls alone: it is the number of [Next] calls since the last [Clear]
    (modulo 2^64).  [Erase] and [Put] never move it. *)
Theorem IndirectionTable_DenseSize_counts_Next ops s s' :
  run s ops = Ok s' →
  DenseSize s' = Next_calls_since_Clear ops (DenseSize s).
Proof.
  unfold Next_calls_since_Clear, DenseSize. revert s.
  induction ops as [|o ops IH]; intros s; simpl; [by intros [= <-] |].
  destruct (step s o) as [s1|] eqn:Hstep; simpl; [| discriminate].
  intros Hrun. rewrite (IH _ Hrun). f_equal. clear IH Hrun.
  destruct o as [| index | sparseIndex denseIndex |]; simpl in Hstep.
  - unfold Next in Hstep. destruct (last (m_freeList s)).
    + destruct (vset _ _ _); simpl in Hstep; [| discriminate].
      by injection Hstep as <-.
    + by injection Hstep as <-.
  - unfold Erase in Hstep. destruct (assert _ _); simpl in Hstep; [| discriminate].
    destruct (vset _ _ _); simpl in Hstep; [| discriminate]. by injection Hstep as <-.
  - unfold Put in Hstep. destruct (assert _ _); simpl in Hstep; [| discriminate].
    destruct (vset _ _ _); simpl in Hstep; [| discriminate]. by injection Hstep as <-.
  - by injection Hstep as <-.
Qed.

Lemma IndirectionTable_DenseSize_counts_Next_witness :
  DenseSize recycled_table =
    Next_calls_since_Clear [OpNext; OpErase 0; OpNext] (DenseSize empty).
Proof.
  apply (IndirectionTable_DenseSize_counts_Next [OpNext; OpErase 0; OpNext]
           empty recycled_table).
  reflexivity.
Defined.

(** X4.  The free list is a stack and is not checked for duplicates:
    after [Erase(a)] and [Erase(b)] on allocated slots, the next two
    [Next] calls return [b] and then [a] and leave the free list and the
    table size as they were, each counting the dense size up by one.  With
    [a = b], a slot erased twice, [Next] hands out the same identifier
    twice. *)
Theorem IndirectionTable_free_list_is_a_stack s a b :
  a < Size s → b < Size s →
  ∃ s1 s2 s3 s4,
    Erase s a = Ok s1 ∧ Erase s1 b = Ok s2 ∧
    Next s2 = Ok (s3, b) ∧ Next s3 = Ok (s4, a) ∧
    m_freeList s4 = m_freeList s ∧
    Size s4 = Size s ∧
    DenseSize s4 = size_t_succ (size_t_succ (DenseSize s)).
Proof.
  intros Ha Hb. unfold Size in *.
  eexists. eexists. eexists. eexists.
  split; [by apply IndirectionTable_Erase_allocated |].
  split.
  { apply IndirectionTable_Erase_allocated. unfold Size. simpl.
    by rewrite vsize_insert. }
  split.
  { unfold Next. cbn [m_freeList m_indirection m_denseSize].
    rewrite last_snoc, vset_in_range by (by rewrite !vsize_insert).
    cbn [mbind outcome_bind mret outcome_ret]. rewrite removelast_last.
    reflexivity. }
  split.
  { unfold Next. cbn [m_freeList m_indirection m_denseSize].
    rewrite last_snoc, vset_in_range by (by rewrite !vsize_insert).
    cbn [mbind outcome_bind mret outcome_ret]. rewrite removelast_last.
    reflexivity. }
  cbn [m_freeList m_indirection]. unfold DenseSize. cbn [m_denseSize].
  by rewrite !vsize_insert.
Qed.

Lemma IndirectionTable_free_list_is_a_stack_witness :
  ∃ s1 s2 s3 s4,
    Erase three_slot_table 0 = Ok s1 ∧ Erase s1 0 = Ok s2 ∧
    Next s2 = Ok (s3, 0) ∧ Next s3 = Ok (s4, 0) ∧
    m_freeList s4 = m_freeList three_slot_table ∧
    Size s4 = Size three_slot_table ∧
    DenseSize s4 = size_t_succ (size_t_succ (DenseSize three_slot_table)).
Proof.
  apply (IndirectionTable_free_list_is_a_stack three_slot_table 0 0); reflexivity.
Defined.

Lemma IndirectionTable_Erase_directed_witness :
  ∃ s', Erase three_slot_table 2 = Ok s' ∧
        live_slots s' + 1 = live_slots three_slot_table ∧
        DenseSize s' = DenseSize three_slot_table.
Proof. apply (IndirectionTable_Erase_directed three_slot_table 2 2). reflexivity. Defined.

(** X6.  With an empty free list [Next] appends a slot, directed to the
    current dense size, and returns that dense size, not the index of the
    slot it appended.  The two differ as soon as the counter has run ahead
    of the table, which every [Erase] followed by a recycling [Next]
    causes; the returned identifier then lies outside the table and
    reading it back stops on the range assertion. *)
Theorem IndirectionTable_Next_mints s :
  m_freeList s = [] →
  ∃ s', Next s = Ok (s', DenseSize s) ∧
        Size s' = Size s + 1 ∧
        At s' (Size s) = Ok (Some (DenseSize s)) ∧
        (Size s < DenseSize s → At s' (DenseSize s) = Abort OutOfRange).
Proof.
  intros Hfree. unfold Next, DenseSize, Size. rewrite Hfree. simpl.
  eexists. split; [reflexivity |]. unfold At, assert, vsize. simpl.
  rewrite length_app. simpl. split; [lia |]. split.
  - rewrite bool_decide_eq_true_2 by lia. simpl. unfold vget.
    rewrite Nat2N.id, lookup_app_r, Nat.sub_diag by lia. reflexivity.
  - intros Hahead. rewrite bool_decide_eq_false_2 by lia. reflexivity.
Qed.

Lemma IndirectionTable_Next_mints_witness :
  ∃ s', Next recycled_table = Ok (s', DenseSize recycled_table) ∧
        Size s' = Size recycled_table + 1 ∧
        At s' (Size recycled_table) = Ok (Some (DenseSize recycled_table)) ∧
        (Size recycled_table < DenseSize recycled_table →
         At s' (DenseSize recycled_table) = Abort OutOfRange).
Proof. apply (IndirectionTable_Next_mints recycled_table). reflexivity. Defined.

Lemma filter_directed_Some (l : list N) :
  filter (λ e, e ≠ Undirected) (Some <$> l) = Some <$> l.
Proof.
  induction l as [|x l IH]; [reflexivity |].
  rewrite fmap_cons, filter_cons_True by discriminate. by rewrite IH.
Qed.

Lemma run_Next_only (m k : nat) :
  N.of_nat (k + m) < size_t_modulus →
  run (mk (Some <$> (N.of_nat <$> seq 0 k)) [] (N.of_nat k)) (replicate m OpNext) =
    Ok (mk (Some <$> (N.of_nat <$> seq 0 (k + m))) [] (N.of_nat (k + m))).
Proof.
  revert k. induction m as [|m IH]; intros k Hfit; simpl.
  - by rewrite Nat.add_0_r.
  - unfold Next. cbn [m_freeList m_indirection m_denseSize last].
    cbn [mbind outcome_bind mret outcome_ret].
    replace (size_t_succ (N.of_nat k)) with (N.of_nat (S k)).
    2:{ unfold size_t_succ. rewrite N.mod_small by lia. lia. }
    replace ((Some <$> (N.of_nat <$> seq 0 k)) ++ [Some (N.of_nat k)])
      with (Some <$> (N.of_nat <$> seq 0 (S k)) : list (option N)).
    2:{ rewrite seq_S, !fmap_app. reflexivity. }
    replace (k + S m)%nat with (S k + m)%nat in * by lia. by apply IH.
Qed.

(** X7.  As long as nothing is erased, slots and dense positions
    coincide: [n] calls of [Next] on a fresh table return no error and
    leave [n] slots, slot [i] directed to dense position [i], with
    [DenseSize], [Size] and the number of live slots all equal to [n]. *)
Theorem IndirectionTable_Next_only (n : nat) :
  N.of_nat n < size_t_modulus →
  ∃ s, run empty (replicate n OpNext) = Ok s ∧
       Size s = N.of_nat n ∧
       DenseSize s = N.of_nat n ∧
       live_slots s = N.of_nat n ∧
       ∀ i, i < N.of_nat n → At s i = Ok (Some i).
Proof.
  intros Hfit. eexists. split; [exact (run_Next_only n 0 Hfit) |].
  unfold Size, DenseSize, live_slots, vsize. cbn [m_indirection m_denseSize].
  rewrite filter_directed_Some, !length_fmap, length_seq. simpl.
  split; [reflexivity |]. split; [reflexivity |]. split; [reflexivity |].
  intros i Hi. unfold At, assert, vsize. cbn [m_indirection].
  rewrite !length_fmap, length_seq, bool_decide_eq_true_2 by done. simpl.
  unfold vget. rewrite !list_lookup_fmap, lookup_seq_lt by lia. simpl.
  by rewrite N2Nat.id.
Qed.

Lemma IndirectionTable_Next_only_witness :
  ∃ s, run empty (replicate 3 OpNext) = Ok s ∧
       Size s = N.of_nat 3 ∧
       DenseSize s = N.of_nat 3 ∧
       live_slots s = N.of_nat 3 ∧
       ∀ i, i < N.of_nat 3 → At s i = Ok (Some i).
Proof. apply (IndirectionTable_Next_only 3). reflexivity. Defined.

End IndirectionTableRuns.

(* ===================================================================== *)
(** ** Lookups in a bucket whose keys are in order *)
(* ===================================================================== *)

Section BucketLookups.

Implicit Types (b : Bucket.t) (key value : N).

(** In keys that are in order, the lower bound of a key that occurs is
    the position where it occurs. *)
Lemma lower_bound_index_of (keys : list N) (key : N) (i : nat) :
  StronglySorted N.lt keys → keys !! i = Some key → lower_bound keys key = i.
Proof.
  intros Hs Hi. destruct (lower_bound_partition keys key Hs) as [Hlo Hhi].
  pose proof (lower_bound_le_length keys key) as Hlen.
  pose proof (lookup_lt_Some _ _ _ Hi) as Hilt.
  set (r := lower_bound keys key) in *.
  destruct (decide (i < r)%nat) as [Hlt | Hge].
  { pose proof (Hlo i key Hlt Hi). lia. }
  destruct (decide (r = i)) as [-> | Hne]; [reflexivity |].
  destruct (lookup_lt_is_Some_2 keys r ltac:(lia)) as [x Hx].
  pose proof (Hhi r x ltac:(lia) Hx).
  pose proof (sorted_lookup_lt keys r i x key Hs ltac:(lia) Hx Hi). lia.
Qed.

Lemma Bucket_Value_elem b key value :
  sorted_by_offset b → (Bucket.Value b key = Some value ↔ (key, value) ∈ b).
Proof.
  unfold sorted_by_offset, Bucket.Value, Bucket.m_keys. intros Hs. split.
  - destruct (b !! lower_bound b.*1 key) as [[k v]|] eqn:Hr; [| discriminate].
    destruct (N.eqb_spec k key) as [-> | ]; [| discriminate].
    intros [= <-]. by eapply list_elem_of_lookup_2.
  - intros Hin. apply list_elem_of_lookup in Hin as [i Hi].
    assert (b.*1 !! i = Some key) as Hk by (by rewrite list_lookup_fmap, Hi).
    rewrite (lower_bound_index_of _ _ _ Hs Hk), Hi. by rewrite N.eqb_refl.
Qed.

Lemma Bucket_Contains_elem b key :
  sorted_by_offset b → (Bucket.Contains b key = true ↔ key ∈ Bucket.m_keys b).
Proof.
  intros Hs. rewrite Bucket_Contains_Value. unfold Bucket.m_keys. split.
  - intros [v Hv]. apply (Bucket_Value_elem _ _ _ Hs) in Hv.
    apply list_elem_of_fmap. by exists (key, v).
  - intros Hin. apply list_elem_of_fmap in Hin as ([k v] & -> & Hin).
    exists v. by apply Bucket_Value_elem.
Qed.

(** X8.  [Contains] and [Value] always agree on whether a key is there,
    whatever the order of the bucket; when the keys are in order both are
    exact: [Value] returns [v] for a key precisely when the bucket holds
    the entry (key, v), and [Contains] answers whether the key occurs. *)
Theorem Bucket_lookup_exact b key :
  (Bucket.Contains b key = true ↔ is_Some (Bucket.Value b key)) ∧
  (sorted_by_offset b →
   (∀ value, Bucket.Value b key = Some value ↔ (key, value) ∈ b) ∧
   (Bucket.Contains b key = true ↔ key ∈ Bucket.m_keys b)).
Proof.
  split; [apply Bucket_Contains_Value |]. intros Hs. split.
  - intros value. by apply Bucket_Value_elem.
  - by apply Bucket_Contains_elem.
Qed.

Lemma Bucket_Insert_elem capacity b key value x :
  Bucket.Size b < capacity →
  x ∈ (Bucket.Insert capacity b key value).1 ↔ x = (key, value) ∨ x ∈ b.
Proof.
  intros Hroom. unfold Bucket.Insert.
  rewrite (proj2 (N.leb_gt _ _) Hroom). cbv zeta. cbn [fst].
  rewrite elem_of_app, elem_of_cons.
  assert (x ∈ b ↔ x ∈ take (lower_bound (Bucket.m_keys b) key) b
                  ∨ x ∈ drop (lower_bound (Bucket.m_keys b) key) b) as ->.
  { by rewrite <- elem_of_app, take_drop. }
  tauto.
Qed.

(** X9.  [Bucket::Insert] of a key that is not there, into a bucket in
    order and with room: it reports success, the bucket is one entry
    longer and still in order, the key is found with its value, and every
    other key is found with the value it had. *)
Theorem Bucket_Insert_lookup capacity b key value :
  sorted_by_offset b →
  Bucket.Contains b key = false →
  Bucket.Size b < capacity →
  let b' := (Bucket.Insert capacity b key value).1 in
  (Bucket.Insert capacity b key value).2 = true ∧
  sorted_by_offset b' ∧
  Bucket.Size b' = Bucket.Size b + 1 ∧
  Bucket.Value b' key = Some value ∧
  ∀ other, other ≠ key → Bucket.Value b' other = Bucket.Value b other.
Proof.
  intros Hs Hc Hroom b'.
  assert (Hs' : sorted_by_offset b') by (by apply Bucket_Insert_sorted).
  split.
  { unfold Bucket.Insert. by rewrite (proj2 (N.leb_gt _ _) Hroom). }
  split; [exact Hs' |]. split.
  { unfold b', Bucket.Size at 1. unfold vsize.
    rewrite Bucket_Insert_length, (proj2 (N.leb_gt _ _) Hroom).
    unfold Bucket.Size, vsize. lia. }
  split.
  { apply (Bucket_Value_elem _ _ _ Hs'), Bucket_Insert_elem; auto. }
  intros other Hne. apply option_eq. intros w.
  rewrite (Bucket_Value_elem _ _ _ Hs'), (Bucket_Value_elem _ _ _ Hs).
  unfold b'. rewrite Bucket_Insert_elem by done. split; [| by right].
  intros [[= ? _] | Hin]; [done | exact Hin].
Qed.

Lemma Bucket_Insert_lookup_witness :
  (Bucket.Insert 1024 sample_bucket 5 50).2 = true ∧
  sorted_by_offset (Bucket.Insert 1024 sample_bucket 5 50).1 ∧
  Bucket.Size (Bucket.Insert 1024 sample_bucket 5 50).1 = Bucket.Size sample_bucket + 1 ∧
  Bucket.Value (Bucket.Insert 1024 sample_bucket 5 50).1 5 = Some 50 ∧
  ∀ other, other ≠ 5 →
    Bucket.Value (Bucket.Insert 1024 sample_bucket 5 50).1 other =
    Bucket.Value sample_bucket other.
Proof.
  apply (Bucket_Insert_lookup 1024 sample_bucket 5 50);
    [repeat constructor | reflexivity | reflexivity].
Defined.

(** [Remove] either finds nothing and returns the bucket, or cuts out the
    entry at the lower bound. *)
Lemma Bucket_Remove_cases b key :
  (Bucket.Contains b key = false ∧ Bucket.Remove b key = b) ∨
  (∃ r v0, b !! r = Some (key, v0) ∧
           Bucket.Contains b key = true ∧
           Bucket.Remove b key = take r b ++ drop (S r) b).
Proof.
  unfold Bucket.Remove, Bucket.Contains.
  pose proof (lower_bound_not_less (Bucket.m_keys b) key) as Hge.
  set (r := lower_bound (Bucket.m_keys b) key) in *.
  destruct (Bucket.m_keys b !! r) as [k|] eqn:Hr; [| by left].
  specialize (Hge k eq_refl).
  destruct (N.eqb_spec k key) as [-> | Hne].
  - right. unfold Bucket.m_keys in Hr. rewrite list_lookup_fmap in Hr.
    destruct (b !! r) as [[k v0]|] eqn:Hbr; [| discriminate].
    simpl in Hr. injection Hr as ->.
    exists r, v0. by rewrite N.ltb_irrefl.
  - left. split; [| reflexivity]. apply negb_false_iff, N.ltb_lt. lia.
Qed.

(** X10.  [Bucket::Remove] on a bucket in order: the key is not found
    afterwards, the bucket stays in order, every other key keeps its
    value, and the bucket loses one entry exactly when the key was there
    (for a key that is not there nothing changes). *)
Theorem Bucket_Remove_lookup b key :
  sorted_by_offset b →
  let b' := Bucket.Remove b key in
  sorted_by_offset b' ∧
  Bucket.Contains b' key = false ∧
  (∀ other, other ≠ key → Bucket.Value b' other = Bucket.Value b other) ∧
  Bucket.Size b' + (if Bucket.Contains b key then 1 else 0) = Bucket.Size b ∧
  (Bucket.Contains b key = false → b' = b).
Proof.
  intros Hs b'.
  assert (Hs' : sorted_by_offset b') by (by apply Bucket_Remove_sorted).
  split; [exact Hs' |]. revert Hs'. unfold b'. clear b'.
  destruct (Bucket_Remove_cases b key) as [[Hc ->] | (r & v0 & Hbr & Hc & ->)];
    intros Hs'; rewrite Hc.
  { split; [done |]. split; [done |]. split; [lia | done]. }
  pose proof (take_drop_middle b r (key, v0) Hbr) as Hsplit.
  assert (Hnotin : key ∉ Bucket.m_keys (take r b ++ drop (S r) b)).
  { unfold sorted_by_offset, Bucket.m_keys in Hs. rewrite <- Hsplit in Hs.
    rewrite fmap_app, fmap_cons in Hs. simpl in Hs.
    apply StronglySorted_app in Hs as (Hcross & _ & Hrest).
    apply StronglySorted_cons in Hrest as [Hall _].
    unfold Bucket.m_keys. rewrite fmap_app, elem_of_app. intros [Hin | Hin].
    - pose proof (Hcross key key Hin ltac:(by left)). lia.
    - pose proof (proj1 (Forall_forall _ _) Hall key Hin). lia. }
  split.
  { destruct (Bucket.Contains (take r b ++ drop (S r) b) key) eqn:Hc'; [| reflexivity].
    by apply (Bucket_Contains_elem _ _ Hs') in Hc'. }
  split.
  { intros other Hother. apply option_eq. intros w.
    rewrite (Bucket_Value_elem _ _ _ Hs'), (Bucket_Value_elem _ _ _ Hs).
    assert ((other, w) ∈ b ↔
            (other, w) ∈ take r b ∨ (other, w) = (key, v0) ∨ (other, w) ∈ drop (S r) b)
      as ->.
    { by rewrite <- elem_of_cons, <- elem_of_app, Hsplit. }
    rewrite elem_of_app.
    split; [tauto |]. intros [? | [[= ? _] | ?]]; [tauto | done | tauto]. }
  split; [| discriminate].
  unfold Bucket.Size, vsize.
  assert (length b = length (take r b ++ (key, v0) :: drop (S r) b)) as ->
    by (by rewrite Hsplit).
  rewrite !length_app. simpl. lia.
Qed.

Lemma Bucket_Remove_lookup_witness :
  sorted_by_offset (Bucket.Remove sample_bucket 4) ∧
  Bucket.Contains (Bucket.Remove sample_bucket 4) 4 = false ∧
  (∀ other, other ≠ 4 →
     Bucket.Value (Bucket.Remove sample_bucket 4) other = Bucket.Value sample_bucket other) ∧
  Bucket.Size (Bucket.Remove sample_bucket 4)
    + (if Bucket.Contains sample_bucket 4 then 1 else 0) = Bucket.Size sample_bucket ∧
  (Bucket.Contains sample_bucket 4 = false → Bucket.Remove sample_bucket 4 = sample_bucket).
Proof.
  apply (Bucket_Remove_lookup sample_bucket 4). repeat constructor.
Defined.

(** X11.  [Remove] undoes [Insert]: inserting a key that is not there
    into a bucket in order and with room, and removing it again, gives
    the bucket back entry for entry. *)
Theorem Bucket_Remove_Insert capacity b key value :
  sorted_by_offset b →
  Bucket.Contains b key = false →
  Bucket.Size b < capacity →
  Bucket.Remove (Bucket.Insert capacity b key value).1 key = b.
Proof.
  intros Hs Hc Hroom.
  pose proof (Bucket_Insert_sorted capacity b key value Hs Hc) as Hs'.
  revert Hs'. unfold Bucket.Insert, sorted_by_offset.
  rewrite (proj2 (N.leb_gt _ _) Hroom). cbv zeta. cbn [fst].
  pose proof (lower_bound_le_length (Bucket.m_keys b) key) as Hlen.
  assert (length (Bucket.m_keys b) = length b) as Hkeys by apply length_fmap.
  rewrite Hkeys in Hlen.
  set (r := lower_bound (Bucket.m_keys b) key) in *. intros Hs'.
  assert (Hr : length (take r b) = r) by (rewrite length_take; lia).
  assert (Hk : Bucket.m_keys (take r b ++ (key, value) :: drop r b) !! r = Some key).
  { unfold Bucket.m_keys. rewrite list_lookup_fmap.
    rewrite (list_lookup_middle _ _ _ r) by done. reflexivity. }
  unfold Bucket.Remove. rewrite (lower_bound_index_of _ _ _ Hs' Hk), Hk, N.eqb_refl.
  rewrite take_app_length' by done.
  replace (S r) with (r + 1)%nat by lia. rewrite <- drop_drop.
  rewrite drop_app_length' by done. simpl. rewrite drop_0. apply take_drop.
Qed.

Lemma Bucket_Remove_Insert_witness :
  Bucket.Remove (Bucket.Insert 1024 sample_bucket 5 50).1 5 = sample_bucket.
Proof.
  apply (Bucket_Remove_Insert 1024 sample_bucket 5 50);
    [repeat constructor | reflexivity | reflexivity].
Defined.


End BucketLookups.

(* ===================================================================== *)
(** ** Lookups in the paged sparse index *)
(* ===================================================================== *)

Section SparseSetLookups.

Variable shift : N.
Variable grow : N → N.

Abbreviation CAP := (SparseSet.SPARSE_BUCKET_SIZE shift).
Abbreviation page k := (SparseSet.GetBucketIndexAndOffset shift k).1.
Abbreviation offset k := (SparseSet.GetBucketIndexAndOffset shift k).2.

Implicit Types (s : SparseSet.t) (k v : N) (sparse : gmap N Bucket.t) (b : Bucket.t).

Lemma page_offset_div_mod k :
  page k = k / 2 ^ shift ∧ offset k = k mod 2 ^ shift ∧ CAP = 2 ^ shift.
Proof.
  unfold SparseSet.GetBucketIndexAndOffset, SparseSet.SPARSE_BUCKET_SIZE. simpl.
  rewrite N.shiftl_1_l, N.shiftr_div_pow2, N.sub_1_r, <- N.ones_equiv, N.land_ones.
  done.
Qed.

Lemma page_offset_inj k k' :
  page k' = page k → offset k' = offset k → k' = k.
Proof.
  destruct (page_offset_div_mod k) as (-> & -> & _).
  destruct (page_offset_div_mod k') as (-> & -> & _).
  intros Hdiv Hmod.
  rewrite (N.div_mod' k (2 ^ shift)), (N.div_mod' k' (2 ^ shift)).
  by rewrite Hdiv, Hmod.
Qed.

(** X13.  [GetBucketIndexAndOffset] splits a key without loss: the
    offset is below the bucket size, page times bucket size plus offset
    gives the key back, and so two different keys never share both page
    and offset. *)
Theorem SparseSet_page_offset_decompose k :
  page k * CAP + offset k = k ∧
  offset k < CAP ∧
  ∀ k', SparseSet.GetBucketIndexAndOffset shift k' =
        SparseSet.GetBucketIndexAndOffset shift k → k' = k.
Proof.
  destruct (page_offset_div_mod k) as (Hp & Ho & Hc).
  assert (2 ^ shift ≠ 0) as Hnz by (apply N.pow_nonzero; discriminate).
  split; [| split].
  - rewrite Hp, Ho, Hc. rewrite N.mul_comm. symmetry. apply N.div_mod'.
  - rewrite Ho, Hc. by apply N.mod_lt.
  - intros k' Heq. apply page_offset_inj; by rewrite Heq.
Qed.


Lemma SparseSet_Get_unfold inv s k :
  SparseSet.Get shift inv s k =
    match SparseSet.m_sparse s !! page k with
    | Some b => default inv (Bucket.Value b (offset k))
    | None => inv
    end.
Proof. reflexivity. Qed.


Lemma Bucket_Insert_Value capacity b key value other :
  sorted_by_offset b →
  Bucket.Contains b key = false →
  Bucket.Size b < capacity →
  Bucket.Value (Bucket.Insert capacity b key value).1 other =
    if decide (other = key) then Some value else Bucket.Value b other.
Proof.
  intros Hs Hc Hroom.
  pose proof (Bucket_Insert_sorted capacity b key value Hs Hc) as Hs'.
  apply option_eq. intros w. rewrite (Bucket_Value_elem _ _ _ Hs').
  rewrite Bucket_Insert_elem by done. case_decide as Hk.
  - subst other. split.
    + intros [[= ->] | Hin]; [done |].
      assert (Bucket.Contains b key = true); [| congruence].
      apply (Bucket_Contains_elem _ _ Hs). apply list_elem_of_fmap. by exists (key, w).
    + intros [= ->]. by left.
  - rewrite (Bucket_Value_elem _ _ _ Hs). split; [| by right].
    intros [[= ? _] | Hin]; [done | exact Hin].
Qed.




Lemma sorted_by_offset_take_drop b n :
  sorted_by_offset b → sorted_by_offset (take n b) ∧ sorted_by_offset (drop n b).
Proof.
  unfold sorted_by_offset, Bucket.m_keys. intros Hs.
  rewrite fmap_take, fmap_drop. rewrite <- (take_drop n b.*1) in Hs.
  apply StronglySorted_app in Hs as (_ & Htake & Hdrop). by split.
Qed.

Lemma all_sorted_insert sparse i b :
  all_sorted sparse → sorted_by_offset b → all_sorted (<[i := b]> sparse).
Proof.
  intros Hall Hb j bj. rewrite lookup_insert. case_decide; [| apply Hall].
  by intros [= <-].
Qed.

Lemma all_sorted_GetOrCreateBucket sparse i :
  all_sorted sparse →
  all_sorted (SparseSet.GetOrCreateBucket sparse i).1 ∧
  sorted_by_offset (SparseSet.GetOrCreateBucket sparse i).2.
Proof.
  intros Hall. unfold SparseSet.GetOrCreateBucket.
  destruct (sparse !! i) as [b|] eqn:Hi; simpl.
  - split; [done | by eapply Hall].
  - split; [apply all_sorted_insert; [done | constructor] | constructor].
Qed.

(** X15.  [Insert] never disturbs the order inside buckets: if every
    bucket has its keys in order before the call, every bucket has after
    it, whether the key was present, new, or caused a split. *)
Theorem SparseSet_Insert_sorted s k v s' r :
  all_sorted (SparseSet.m_sparse s) →
  SparseSet.Insert shift grow s k v = Ok (s', r) →
  all_sorted (SparseSet.m_sparse s').
Proof.
  intros Hall. unfold SparseSet.Insert.
  destruct (all_sorted_GetOrCreateBucket _ (page k) Hall) as [Hall1 Hb].
  cbn [fst snd] in *. 
  change (SparseSet.GetBucketIndexAndOffset shift k) with (page k, offset k).
  cbv iota.
  destruct (SparseSet.GetOrCreateBucket (SparseSet.m_sparse s) (page k)) as [sparse b].
  cbn [fst snd] in *.
  destruct (Bucket.Contains b (offset k)) eqn:Hc; [by intros [= <- _] |].
  destruct (CAP <=? Bucket.Size b).
  - destruct (all_sorted_GetOrCreateBucket _ (page k + 1) Hall1) as [Hall2 _].
    destruct (SparseSet.GetOrCreateBucket sparse (page k + 1)) as [sparse2 nb].
    cbn [fst snd] in *. unfold Bucket.Distribute. cbv zeta iota beta.
    destruct (sorted_by_offset_take_drop b (length b / 2) Hb) as [Htake Hdrop].
    match goal with |- context [vset ?d ?i k] => destruct (vset d i k) end;
      [| discriminate].
    intros [= <- _]. cbn [SparseSet.m_sparse].
    repeat apply all_sorted_insert; try done.
    apply Bucket_Insert_sorted; [done |].
    destruct (Bucket.Contains (take (length b / 2) b) (offset k)) eqn:Hct; [| done].
    apply (Bucket_Contains_elem _ _ Htake) in Hct.
    assert (Bucket.Contains b (offset k) = true); [| congruence].
    apply (Bucket_Contains_elem _ _ Hb). unfold Bucket.m_keys in *.
    rewrite fmap_take in Hct. apply elem_of_take in Hct as (i & Hi & _).
    by eapply list_elem_of_lookup_2.
  - match goal with |- context [vset ?d ?i k] => destruct (vset d i k) end;
      [| discriminate].
    intros [= <- _]. cbn [SparseSet.m_sparse].
    apply all_sorted_insert; [done |]. by apply Bucket_Insert_sorted.
Qed.

Lemma SparseSet_step_within s o s' :
  within_capacity shift (SparseSet.m_sparse s) →
  SparseSet_step shift grow s o = Ok s' →
  within_capacity shift (SparseSet.m_sparse s').
Proof.
  intros Hw. destruct o as [entity value | entity |]; simpl.
  - destruct (SparseSet.Insert shift grow s entity value) as [[s1 r]|] eqn:Hi;
      simpl; [| discriminate].
    intros [= <-]. by eapply SparseSet_Insert_within.
  - by apply SparseSet_Remove_within.
  - intros [= <-]. simpl. intros i b. by rewrite lookup_empty.
Qed.

(** X16.  No run of [Insert], [Remove] and [Clear] calls on a fresh index
    ever leaves a bucket with more than [SPARSE_BUCKET_SIZE] entries: the
    arrays of a bucket are never written past their end. *)
Theorem SparseSet_run_within_capacity initialCapacity ops s :
  SparseSet_run shift grow (SparseSet.create initialCapacity) ops = Ok s →
  within_capacity shift (SparseSet.m_sparse s).
Proof.
  assert (Hw : within_capacity shift (SparseSet.m_sparse (SparseSet.create initialCapacity))).
  { intros i b. simpl. by rewrite lookup_empty. }
  revert Hw. generalize (SparseSet.create initialCapacity).
  induction ops as [|o ops IH]; intros s0 Hw; simpl; [by intros [= <-] |].
  destruct (SparseSet_step shift grow s0 o) as [s1|] eqn:Hstep; simpl; [| discriminate].
  apply IH. by eapply SparseSet_step_within.
Qed.

End SparseSetLookups.


Lemma SparseSet_Insert_sorted_witness :
  all_sorted (SparseSet.m_sparse
                (SparseSet.mk [5; 9; 0; 0] {[ 0 := [(5, 7); (9, 1)] ]} 2)).
Proof.
  apply (SparseSet_Insert_sorted 10 default_grow singleton_index 9 1 _ 1);
    [| vm_compute; reflexivity].
  intros i b Hb. destruct (decide (i = 0)) as [-> | Hne].
  - vm_compute in Hb. injection Hb as <-. repeat constructor.
  - unfold singleton_index in Hb. simpl in Hb.
    by rewrite lookup_singleton_ne in Hb.
Defined.

Lemma SparseSet_run_within_capacity_witness :
  within_capacity 10
    (SparseSet.m_sparse
       (SparseSet.mk (<[0%nat := 2]> (<[1%nat := 1024]> (<[2%nat := 3]> (replicate 1024 0))))
          {[ 0 := [(2, 0); (0, 1)] ]} 2)).
Proof.
  apply (SparseSet_run_within_capacity 10 default_grow 1024
           [OpInsert 2 0; OpInsert 1024 1; OpInsert 3 2; OpRemove 3]).
  vm_compute. reflexivity.
Defined.


(* ===================================================================== *)
(** ** The packed record store under its invariant *)
(* ===================================================================== *)

Section DenseArrayInvariant.

Context {Comp : Type}.

Implicit Types (d : DenseArray.t Comp) (key i : N) (c : Comp).

Lemma lookup_removelast {A} (l : list A) (j : nat) :
  removelast l !! j = if decide (j < length l - 1)%nat then l !! j else None.
Proof.
  rewrite removelast_take. case_decide.
  - by apply lookup_take_lt.
  - apply lookup_take_ge. lia.
Qed.

Lemma DenseArray_wf_in_range d key i :
  DenseArray_wf d → DenseArray.m_keyToIndex d !! key = Some i →
  (N.to_nat i < length (DenseArray.m_components d))%nat.
Proof.
  intros (Hlen & _ & Hinv) Hkey. rewrite Hlen.
  eapply lookup_lt_Some. by apply Hinv.
Qed.

Lemma DenseArray_wf_empty : DenseArray_wf (DenseArray.empty (Comp:=Comp)).
Proof.
  split; [reflexivity |]. split; [reflexivity |]. intros key i. simpl.
  rewrite lookup_empty, lookup_nil. split; discriminate.
Qed.

Lemma DenseArray_Add_wf d key c :
  DenseArray_wf d →
  DenseArray.m_keyToIndex d !! key = None →
  DenseArray.Size d + 1 < size_t_modulus →
  DenseArray.Add d key c =
    Ok (DenseArray.mk (DenseArray.m_components d ++ [c])
          (<[key := DenseArray.Size d]> (DenseArray.m_keyToIndex d))
          (DenseArray.m_indexToKey d ++ [key])) ∧
  DenseArray_wf
    (DenseArray.mk (DenseArray.m_components d ++ [c])
       (<[key := DenseArray.Size d]> (DenseArray.m_keyToIndex d))
       (DenseArray.m_indexToKey d ++ [key])).
Proof.
  intros (Hlen & Hfit & Hinv) Hnew Hroom.
  destruct d as [comps k2i i2k]. unfold DenseArray.Size, vsize in *. simpl in *.
  split.
  { unfold DenseArray.Add, assert. simpl.
    by rewrite bool_decide_eq_true_2. }
  unfold DenseArray_wf, vsize. simpl.
  split; [by rewrite !length_app, Hlen |].
  split; [rewrite length_app; simpl; lia |].
  intros key' j. rewrite lookup_insert, lookup_snoc_Some.
  case_decide as Hk.
  - subst key'. split.
    + intros [= <-]. right. rewrite Nat2N.id. by split.
    + intros [[Hlt Hj] | [Hj _]].
      * apply Hinv in Hj. congruence.
      * f_equal. lia.
  - rewrite Hinv. split.
    + intros Hj. left. split; [by eapply lookup_lt_Some | done].
    + intros [[_ Hj] | [_ Heq]]; [done | congruence].
Qed.

(** X17.  [Add] then [Get] on the packed record store.  On a store that
    satisfies its invariant, adding a record under a key that is not
    there succeeds, the invariant still holds, the store has one record
    more, the new key sits at the old size, [Get] of the key returns the
    record, and [Get] of every other key returns what it did. *)
Theorem DenseArray_Add_Get d key c :
  DenseArray_wf d →
  DenseArray.m_keyToIndex d !! key = None →
  DenseArray.Size d + 1 < size_t_modulus →
  ∃ d', DenseArray.Add d key c = Ok d' ∧
        DenseArray_wf d' ∧
        DenseArray.Size d' = DenseArray.Size d + 1 ∧
        DenseArray.GetKeyAtIndex d' (DenseArray.Size d) = Ok key ∧
        DenseArray.Get d' key = Ok c ∧
        ∀ other, other ≠ key → DenseArray.Get d' other = DenseArray.Get d other.
Proof.
  intros Hwf Hnew Hroom.
  destruct (DenseArray_Add_wf d key c Hwf Hnew Hroom) as [Hadd Hwf'].
  eexists. split; [exact Hadd |]. split; [exact Hwf' |].
  destruct Hwf as (Hlen & Hfit & Hinv).
  unfold DenseArray.Size, DenseArray.GetKeyAtIndex, DenseArray.Get, assert, vget, vsize in *.
  cbn [DenseArray.m_components DenseArray.m_keyToIndex DenseArray.m_indexToKey].
  rewrite !length_app. simpl. split; [lia |]. split.
  { rewrite bool_decide_eq_true_2 by lia. simpl.
    rewrite Nat2N.id, Hlen, lookup_app_r, Nat.sub_diag by lia. reflexivity. }
  split.
  { rewrite lookup_insert_eq, Nat2N.id, lookup_app_r, Nat.sub_diag by lia.
    reflexivity. }
  intros other Hne. rewrite lookup_insert_ne by done.
  destruct (DenseArray.m_keyToIndex d !! other) as [j|] eqn:Hj; [| reflexivity].
  rewrite lookup_app_l; [reflexivity |].
  rewrite Hlen. eapply lookup_lt_Some. by apply Hinv.
Qed.

(** X18.  Keys and positions are two views of the same records: under the
    invariant, the key that [GetKeyAtIndex] reports at a position leads
    [Get] to the record that [GetByIndex] returns for that position, and
    every record [Get] returns sits at a position that reports its key. *)
Theorem DenseArray_key_position_agree d :
  DenseArray_wf d →
  (∀ i key, DenseArray.GetKeyAtIndex d i = Ok key →
     ∃ c, DenseArray.Get d key = Ok c ∧ DenseArray.GetByIndex d i = Ok c) ∧
  (∀ key c, DenseArray.Get d key = Ok c →
     ∃ i, DenseArray.GetKeyAtIndex d i = Ok key ∧ DenseArray.GetByIndex d i = Ok c).
Proof.
  intros (Hlen & Hfit & Hinv).
  unfold DenseArray.GetKeyAtIndex, DenseArray.GetByIndex, DenseArray.Get, assert, vget, vsize.
  split.
  - intros i key. case_bool_decide as Hi; simpl; [| discriminate].
    destruct (DenseArray.m_indexToKey d !! N.to_nat i) as [k|] eqn:Hk; [| discriminate].
    intros [= ->]. rewrite (proj2 (Hinv key i) Hk).
    rewrite bool_decide_eq_true_2 by lia. simpl.
    destruct (lookup_lt_is_Some_2 (DenseArray.m_components d) (N.to_nat i)
                ltac:(lia)) as [c Hc].
    exists c. by rewrite Hc.
  - intros key c. destruct (DenseArray.m_keyToIndex d !! key) as [i|] eqn:Hk;
      [| discriminate].
    intros Hc. exists i. pose proof (proj1 (Hinv key i) Hk) as Hi.
    pose proof (lookup_lt_Some _ _ _ Hi).
    rewrite !bool_decide_eq_true_2 by lia. simpl. by rewrite Hi.
Qed.

End DenseArrayInvariant.

Lemma three_record_store_wf : DenseArray_wf three_record_store.
Proof.
  split; [reflexivity |]. split; [reflexivity |].
  intros key i. unfold three_record_store. simpl. split.
  - intros Hk.
    destruct (decide (key = 7)) as [-> | ?]; [by injection Hk as <- |].
    destruct (decide (key = 8)) as [-> | ?]; [by injection Hk as <- |].
    destruct (decide (key = 9)) as [-> | ?]; [by injection Hk as <- |].
    rewrite !lookup_insert_ne in Hk by done.
    by rewrite lookup_singleton_ne in Hk.
  - intros Hi.
    destruct (N.to_nat i) as [|[|[|n]]] eqn:Hn; simpl in Hi; [| | | done];
      injection Hi as <-; replace i with (N.of_nat (N.to_nat i)) by apply N2Nat.id;
      rewrite Hn; reflexivity.
Qed.

Lemma DenseArray_Add_Get_witness :
  ∃ d', DenseArray.Add three_record_store 4 40 = Ok d' ∧
        DenseArray_wf d' ∧
        DenseArray.Size d' = DenseArray.Size three_record_store + 1 ∧
        DenseArray.GetKeyAtIndex d' (DenseArray.Size three_record_store) = Ok 4 ∧
        DenseArray.Get d' 4 = Ok 40 ∧
        ∀ other, other ≠ 4 →
          DenseArray.Get d' other = DenseArray.Get three_record_store other.
Proof.
  apply (DenseArray_Add_Get three_record_store 4 40);
    [apply three_record_store_wf | reflexivity | reflexivity].
Defined.

Lemma DenseArray_key_position_agree_witness :
  (∀ i key, DenseArray.GetKeyAtIndex three_record_store i = Ok key →
     ∃ c, DenseArray.Get three_record_store key = Ok c ∧
          DenseArray.GetByIndex three_record_store i = Ok c) ∧
  (∀ key c, DenseArray.Get three_record_store key = Ok c →
     ∃ i, DenseArray.GetKeyAtIndex three_record_store i = Ok key ∧
          DenseArray.GetByIndex three_record_store i = Ok c).
Proof.
  apply (DenseArray_key_position_agree three_record_store).
  apply three_record_store_wf.
Defined.

(* ===================================================================== *)
(** ** Removal from the packed record store, and its runs *)
(* ===================================================================== *)

Section DenseArrayRemove.

Context {Comp : Type}.

Implicit Types (d : DenseArray.t Comp) (key i : N) (c : Comp).

Lemma DenseArray_wf_inj d k1 k2 j :
  DenseArray_wf d →
  DenseArray.m_keyToIndex d !! k1 = Some j →
  DenseArray.m_keyToIndex d !! k2 = Some j → k1 = k2.
Proof.
  intros (_ & _ & Hinv) H1 H2. apply Hinv in H1, H2. congruence.
Qed.

Lemma length_removelast {A} (l : list A) :
  length (removelast l) = (length l - 1)%nat.
Proof. rewrite removelast_take, length_take. lia. Qed.

Lemma DenseArray_Remove_last d key i :
  DenseArray_wf d →
  DenseArray.m_keyToIndex d !! key = Some i →
  i = DenseArray.Size d - 1 →
  DenseArray.Remove d key =
    Ok (DenseArray.mk (removelast (DenseArray.m_components d))
          (delete key (DenseArray.m_keyToIndex d))
          (removelast (DenseArray.m_indexToKey d))).
Proof.
  intros (Hlen & Hfit & Hinv) Hkey Hlast.
  destruct d as [comps k2i i2k]. unfold DenseArray.Size, vsize in *. simpl in *.
  pose proof (proj1 (Hinv key i) Hkey) as Hi.
  pose proof (lookup_lt_Some _ _ _ Hi) as Hlt.
  destruct (last_is_Some i2k ltac:(lia)) as [lastKey HlastKey].
  destruct (last_is_Some comps ltac:(lia)) as [lastRecord HlastRecord].
  assert (Hpred : size_t_pred (N.of_nat (length comps)) = N.of_nat (length comps) - 1).
  { apply size_t_pred_pos. lia. }
  unfold DenseArray.Remove. cbn [DenseArray.m_keyToIndex DenseArray.m_components
    DenseArray.m_indexToKey]. unfold vpop, vsize. rewrite Hkey, Hpred.
  rewrite (proj2 (N.eqb_eq _ _)) by lia.
  cbn [mbind outcome_bind mret outcome_ret].
  rewrite HlastRecord. cbn [mbind outcome_bind mret outcome_ret].
  rewrite HlastKey. reflexivity.
Qed.

Lemma DenseArray_Remove_wf_Get d key i d' :
  DenseArray_wf d →
  DenseArray.m_keyToIndex d !! key = Some i →
  DenseArray.Remove d key = Ok d' →
  DenseArray_wf d' ∧
  DenseArray.Size d' + 1 = DenseArray.Size d ∧
  DenseArray.m_keyToIndex d' !! key = None ∧
  ∀ other, other ≠ key → DenseArray.Get d' other = DenseArray.Get d other.
Proof.
  intros Hwf Hkey Hrem.
  pose proof Hwf as (Hlen & Hfit & Hinv).
  pose proof (proj1 (Hinv key i) Hkey) as Hi.
  pose proof (lookup_lt_Some _ _ _ Hi) as Hlt.
  assert (Hinj : ∀ k j, DenseArray.m_keyToIndex d !! k = Some j →
                        N.to_nat j = N.to_nat i → k = key).
  { intros k j Hk Hj. apply N2Nat.inj in Hj. subst j.
    by eapply DenseArray_wf_inj. }
  destruct (decide (i = DenseArray.Size d - 1)) as [Hlast | Hnotlast].
  - rewrite (DenseArray_Remove_last d key i Hwf Hkey Hlast) in Hrem.
    injection Hrem as <-.
    unfold DenseArray.Size, DenseArray.Get, DenseArray_wf, vget, vsize in *.
    cbn [DenseArray.m_components DenseArray.m_keyToIndex DenseArray.m_indexToKey].
    rewrite !length_removelast.
    split; [| split; [lia | split; [apply lookup_delete_eq |]]].
    + split; [lia |]. split; [lia |]. intros key' j.
      rewrite lookup_delete_Some, lookup_removelast.
      case_decide as Hj.
      * rewrite Hinv. split; [by intros [_ ?] |]. intros Hk. split; [| done].
        intros <-. apply Hinv in Hk. rewrite Hkey in Hk. injection Hk as <-. lia.
      * split; [| done]. intros [Hne Hk]. pose proof (proj1 (Hinv _ _) Hk) as Hk'.
        pose proof (lookup_lt_Some _ _ _ Hk'). destruct Hne.
        symmetry. apply (Hinj _ _ Hk). lia.
    + intros other Hne. rewrite lookup_delete_ne by done.
      destruct (DenseArray.m_keyToIndex d !! other) as [j|] eqn:Hj; [| reflexivity].
      pose proof (proj1 (Hinv _ _) Hj) as Hj'. pose proof (lookup_lt_Some _ _ _ Hj').
      rewrite lookup_removelast, decide_True; [reflexivity |].
      destruct (decide (N.to_nat j = N.to_nat i)) as [Heq | ?]; [| lia].
      destruct Hne. by apply (Hinj _ _ Hj).
  - destruct (DenseArray_Remove_swaps d key i Hwf Hkey Hnotlast)
      as (lastKey & lastRecord & d0 & HlastKey & HlastRecord & Hrem0 & Hc & Hk & Hm & Hget).
    rewrite Hrem in Hrem0. injection Hrem0 as <-.
    rewrite last_lookup in HlastKey. rewrite last_lookup in HlastRecord.
    assert (HlastIdx : DenseArray.m_keyToIndex d !! lastKey =
                       Some (N.of_nat (pred (length (DenseArray.m_indexToKey d))))).
    { apply Hinv. by rewrite Nat2N.id. }
    unfold DenseArray.Size, DenseArray.Get, DenseArray_wf, vget, vsize in *.
    rewrite Hc, Hk, Hm in *.
    rewrite !length_insert, !length_removelast.
    assert (HlastKey_ne : lastKey ≠ key).
    { intros ->. rewrite Hkey in HlastIdx. injection HlastIdx as ->. lia. }
    split; [| split; [lia | split; [apply lookup_delete_eq |]]].
    + split; [lia |]. split; [lia |]. intros key' j.
      rewrite lookup_delete_Some, lookup_insert_Some, list_lookup_insert_Some.
      rewrite lookup_removelast, length_removelast.
      split.
      * intros [Hne [[<- <-] | [Hne' Hj]]].
        { left. split; [done |]. split; [done |]. lia. }
        right. pose proof (proj1 (Hinv _ _) Hj) as Hj'.
        pose proof (lookup_lt_Some _ _ _ Hj').
        split; [intros Heq; destruct Hne; symmetry; by apply (Hinj _ _ Hj) |].
        rewrite decide_True; [done |].
        destruct (decide (N.to_nat j = pred (length (DenseArray.m_indexToKey d))))
          as [Heq | ?]; [| lia].
        rewrite Heq in Hj'. congruence.
      * intros [(Hij & <- & _) | [Hij Hj]].
        { apply N2Nat.inj in Hij. subst j. split; [done |]. by left. }
        case_decide as Hjlt; [| done]. pose proof (proj2 (Hinv _ _) Hj) as Hj'.
        split.
        { intros <-. rewrite Hkey in Hj'. by injection Hj' as <-. }
        right. split; [| done]. intros <-. rewrite HlastIdx in Hj'.
        injection Hj' as <-. lia.
    + intros other Hne.
      destruct (decide (other = lastKey)) as [-> | Hne'].
      { rewrite Hget, HlastIdx, Nat2N.id, <- Hlen, HlastRecord. reflexivity. }
      rewrite lookup_delete_ne, lookup_insert_ne by done.
      destruct (DenseArray.m_keyToIndex d !! other) as [j|] eqn:Hj; [| reflexivity].
      pose proof (proj1 (Hinv _ _) Hj) as Hj'. pose proof (lookup_lt_Some _ _ _ Hj').
      rewrite list_lookup_insert_ne.
      2:{ intros Heq. destruct Hne. symmetry in Heq. by apply (Hinj _ _ Hj). }
      rewrite lookup_removelast, decide_True; [reflexivity |].
      destruct (decide (N.to_nat j = pred (length (DenseArray.m_indexToKey d))))
        as [Heq | ?]; [| lia].
      rewrite Heq in Hj'. congruence.
Qed.

(** X19.  [Remove] on the packed record store.  On a store that satisfies
    its invariant, removing a key that is there succeeds, the invariant
    still holds, the store has one record less, the key is gone ([Get]
    stops on its key-does-not-exist assertion), and [Get] of every other
    key returns what it did, although the last record has moved into the
    freed position. *)
Theorem DenseArray_Remove_Get d key i :
  DenseArray_wf d →
  DenseArray.m_keyToIndex d !! key = Some i →
  ∃ d', DenseArray.Remove d key = Ok d' ∧
        DenseArray_wf d' ∧
        DenseArray.Size d' + 1 = DenseArray.Size d ∧
        DenseArray.Get d' key = Abort KeyNotFound ∧
        ∀ other, other ≠ key → DenseArray.Get d' other = DenseArray.Get d other.
Proof.
  intros Hwf Hkey.
  assert (∃ d', DenseArray.Remove d key = Ok d') as [d' Hrem].
  { destruct (decide (i = DenseArray.Size d - 1)) as [Hlast | Hnotlast].
    - eexists. by apply (DenseArray_Remove_last d key i).
    - destruct (DenseArray_Remove_swaps d key i Hwf Hkey Hnotlast)
        as (? & ? & d' & _ & _ & Hrem & _). by exists d'. }
  exists d'. split; [exact Hrem |].
  destruct (DenseArray_Remove_wf_Get d key i d' Hwf Hkey Hrem)
    as (Hwf' & Hsize & Hgone & Hothers).
  split; [exact Hwf' |]. split; [exact Hsize |]. split; [| exact Hothers].
  unfold DenseArray.Get. by rewrite Hgone.
Qed.

Lemma DenseArray_step_wf d o d' :
  DenseArray_wf d →
  DenseArray.Size d + 1 < size_t_modulus →
  DenseArray_step d o = Ok d' →
  DenseArray_wf d' ∧
  DenseArray.Size d' + (if is_OpAdd o then 0 else 1) =
    DenseArray.Size d + (if is_OpAdd o then 1 else 0).
Proof.
  intros Hwf Hroom. destruct o as [key c | key]; simpl.
  - destruct (DenseArray.m_keyToIndex d !! key) as [i|] eqn:Hkey.
    { unfold DenseArray.Add, assert. rewrite Hkey. discriminate. }
    destruct (DenseArray_Add_wf d key c Hwf Hkey Hroom) as [-> Hwf'].
    intros [= <-]. split; [exact Hwf' |].
    unfold DenseArray.Size, vsize. simpl. rewrite length_app. simpl. lia.
  - destruct (DenseArray.m_keyToIndex d !! key) as [i|] eqn:Hkey.
    2:{ unfold DenseArray.Remove. rewrite Hkey. discriminate. }
    intros Hrem.
    destruct (DenseArray_Remove_wf_Get d key i d' Hwf Hkey Hrem) as (Hwf' & Hsize & _).
    split; [exact Hwf' | lia].
Qed.

Lemma DenseArray_run_wf_from d ops d' :
  DenseArray_wf d →
  DenseArray.Size d + N.of_nat (length ops) < size_t_modulus →
  DenseArray_run d ops = Ok d' →
  DenseArray_wf d' ∧
  DenseArray.Size d' + DenseArray_drops ops = DenseArray.Size d + DenseArray_adds ops.
Proof.
  unfold DenseArray_adds, DenseArray_drops.
  revert d. induction ops as [|o ops IH]; intros d Hwf Hroom; simpl.
  { intros [= <-]. split; [done | lia]. }
  destruct (DenseArray_step d o) as [d1|] eqn:Hstep; simpl; [| discriminate].
  intros Hrun. simpl in Hroom.
  destruct (DenseArray_step_wf d o d1 Hwf ltac:(lia) Hstep) as [Hwf1 Hsize1].
  destruct (IH d1 Hwf1) as [Hwf' Hsize']; [| exact Hrun |].
  { destruct (is_OpAdd o); lia. }
  split; [exact Hwf' |].
  destruct (is_OpAdd o); simpl; lia.
Qed.

(** X20.  Every run of [Add] and [Remove] calls on an empty store that
    goes through without a failed assertion or exception leaves the store
    with its invariant: the two arrays have the same length and the key
    map and the key array are inverse to each other.  Its size is the
    number of [Add] calls minus the number of [Remove] calls. *)
Theorem DenseArray_run_wf ops d :
  N.of_nat (length ops) < size_t_modulus →
  DenseArray_run DenseArray.empty ops = Ok d →
  DenseArray_wf d ∧
  DenseArray.Size d + DenseArray_drops ops = DenseArray_adds ops.
Proof.
  intros Hlen Hrun.
  destruct (DenseArray_run_wf_from DenseArray.empty ops d DenseArray_wf_empty)
    as [Hwf Hsize]; [exact Hlen | exact Hrun |].
  split; [exact Hwf | exact Hsize].
Qed.

End DenseArrayRemove.

Lemma DenseArray_Remove_Get_witness :
  ∃ d', DenseArray.Remove three_record_store 7 = Ok d' ∧
        DenseArray_wf d' ∧
        DenseArray.Size d' + 1 = DenseArray.Size three_record_store ∧
        DenseArray.Get d' 7 = Abort KeyNotFound ∧
        ∀ other, other ≠ 7 →
          DenseArray.Get d' other = DenseArray.Get three_record_store other.
Proof.
  apply (DenseArray_Remove_Get three_record_store 7 0);
    [apply three_record_store_wf | reflexivity].
Defined.

Lemma DenseArray_run_wf_witness :
  DenseArray_wf (DenseArray.mk [90; 80] {[ 8 := 1; 9 := 0 ]} [9; 8]) ∧
  DenseArray.Size (DenseArray.mk [90; 80] {[ 8 := 1; 9 := 0 ]} [9; 8])
    + DenseArray_drops [OpAdd 7 70; OpAdd 8 80; OpAdd 9 90; OpDrop 7]
  = DenseArray_adds [OpAdd 7 70; OpAdd 8 80; OpAdd 9 90; OpDrop 7].
Proof.
  apply (DenseArray_run_wf [OpAdd 7 70; OpAdd 8 80; OpAdd 9 90; OpDrop 7]);
    vm_compute; reflexivity.
Defined.


(* ===================================================================== *)
(** ** The sparse index and its dense array as inverse maps *)
(* ===================================================================== *)

Section BucketRemoval.

Implicit Types (b : Bucket.t) (key value : N).

Lemma Bucket_Remove_Value b key other :
  sorted_by_offset b →
  Bucket.Value (Bucket.Remove b key) other =
    if decide (other = key) then None else Bucket.Value b other.
Proof.
  intros Hs.
  pose proof (Bucket_Remove_sorted b key Hs) as Hs'. revert Hs'.
  destruct (Bucket_Remove_cases b key) as [[Hc ->] | (r & v0 & Hbr & Hc & ->)];
    intros Hs'.
  { case_decide as Hk; [| reflexivity]. subst other.
    by apply Bucket_Contains_false_Value. }
  pose proof (take_drop_middle b r (key, v0) Hbr) as Hsplit.
  apply option_eq. intros w. rewrite (Bucket_Value_elem _ _ _ Hs'), elem_of_app.
  case_decide as Hk.
  - subst other. split; [| discriminate]. intros Hin.
    unfold sorted_by_offset, Bucket.m_keys in Hs. rewrite <- Hsplit in Hs.
    rewrite fmap_app, fmap_cons in Hs. simpl in Hs.
    apply StronglySorted_app in Hs as (Hcross & _ & Hrest).
    apply StronglySorted_cons in Hrest as [Hall _].
    destruct Hin as [Hin | Hin].
    + assert (key ∈ (take r b).*1) as Hin' by (apply list_elem_of_fmap; by exists (key, w)).
      pose proof (Hcross key key Hin' ltac:(by left)). lia.
    + assert (key ∈ (drop (S r) b).*1) as Hin' by (apply list_elem_of_fmap; by exists (key, w)).
      pose proof (proj1 (Forall_forall _ _) Hall key Hin'). lia.
  - rewrite (Bucket_Value_elem _ _ _ Hs).
    assert ((other, w) ∈ b ↔
            (other, w) ∈ take r b ∨ (other, w) = (key, v0) ∨ (other, w) ∈ drop (S r) b)
      as ->.
    { by rewrite <- elem_of_cons, <- elem_of_app, Hsplit. }
    split; [tauto |]. intros [? | [[= ? _] | ?]]; [tauto | done | tauto].
Qed.

Lemma Bucket_Remove_Size b key :
  Bucket.Size (Bucket.Remove b key) + (if Bucket.Contains b key then 1 else 0)
    = Bucket.Size b.
Proof.
  destruct (Bucket_Remove_cases b key) as [[Hc ->] | (r & v0 & Hbr & Hc & ->)];
    rewrite Hc; [lia |].
  pose proof (take_drop_middle b r (key, v0) Hbr) as Hsplit.
  unfold Bucket.Size, vsize.
  assert (length b = length (take r b ++ (key, v0) :: drop (S r) b)) as ->
    by (by rewrite Hsplit).
  rewrite !length_app. simpl. lia.
Qed.

Lemma Bucket_Value_Contains b key value :
  Bucket.Value b key = Some value → Bucket.Contains b key = true.
Proof. intros Hv. apply Bucket_Contains_Value. by rewrite Hv. Qed.

(** Putting a key back with a new value: what [swap_with_last] does to
    the bucket of the last entity. *)
Lemma Bucket_reinsert_Value capacity b key old value other :
  sorted_by_offset b →
  Bucket.Size b ≤ capacity →
  Bucket.Value b key = Some old →
  let b' := (Bucket.Insert capacity (Bucket.Remove b key) key value).1 in
  sorted_by_offset b' ∧ Bucket.Size b' ≤ capacity ∧
  Bucket.Value b' other = if decide (other = key) then Some value else Bucket.Value b other.
Proof.
  intros Hs Hw Hv b'.
  pose proof (Bucket_Remove_sorted b key Hs) as Hs1.
  pose proof (Bucket_Remove_Value b key key Hs) as Hgone.
  rewrite decide_True in Hgone by done.
  assert (Hc1 : Bucket.Contains (Bucket.Remove b key) key = false).
  { destruct (Bucket.Contains (Bucket.Remove b key) key) eqn:Hc; [| done].
    apply Bucket_Contains_Value in Hc as [? Hc]. congruence. }
  pose proof (Bucket_Remove_Size b key) as Hsz.
  rewrite (Bucket_Value_Contains _ _ _ Hv) in Hsz.
  split; [by apply Bucket_Insert_sorted |].
  split; [apply Bucket_Insert_within; lia |].
  unfold b'. rewrite Bucket_Insert_Value by (done || lia).
  case_decide as Hk; [done |]. rewrite Bucket_Remove_Value by done.
  by rewrite decide_False.
Qed.

End BucketRemoval.

Section SparseSetInvariant.

Variable shift : N.

Abbreviation CAP := (SparseSet.SPARSE_BUCKET_SIZE shift).
Abbreviation page k := (SparseSet.GetBucketIndexAndOffset shift k).1.
Abbreviation offset k := (SparseSet.GetBucketIndexAndOffset shift k).2.

Implicit Types (s : SparseSet.t) (k v : N) (sparse : gmap N Bucket.t) (b : Bucket.t).

Lemma SparseSet_position_unfold s k :
  SparseSet_position shift s k =
    SparseSet.m_sparse s !! page k ≫= λ b, Bucket.Value b (offset k).
Proof.
  unfold SparseSet_position, SparseSet.Contains, SparseSet.Get. simpl.
  destruct (SparseSet.m_sparse s !! N.shiftr k shift) as [b|]; simpl; [| reflexivity].
  pose proof (Bucket_Contains_Value b (N.land k (CAP - 1))) as Hcv.
  destruct (Bucket.Value b (N.land k (CAP - 1))) as [w|] eqn:Hv; simpl.
  - by rewrite (proj2 Hcv ltac:(eauto)).
  - destruct (Bucket.Contains b _); [| reflexivity].
    by destruct (proj1 Hcv eq_refl).
Qed.

Lemma SparseSet_position_insert dense sparse size p b' k' :
  SparseSet_position shift (SparseSet.mk dense (<[p := b']> sparse) size) k' =
    if decide (p = page k') then Bucket.Value b' (offset k')
    else SparseSet_position shift (SparseSet.mk dense sparse size) k'.
Proof.
  rewrite !SparseSet_position_unfold. cbn [SparseSet.m_sparse].
  rewrite lookup_insert. by case_decide.
Qed.

Lemma SparseSet_position_sparse dense dense' sparse size size' k :
  SparseSet_position shift (SparseSet.mk dense sparse size) k =
  SparseSet_position shift (SparseSet.mk dense' sparse size') k.
Proof. reflexivity. Qed.

Lemma SparseSet_position_page s k i :
  SparseSet_position shift s k = Some i →
  ∃ b, SparseSet.m_sparse s !! page k = Some b ∧ Bucket.Value b (offset k) = Some i.
Proof.
  rewrite SparseSet_position_unfold.
  destruct (SparseSet.m_sparse s !! page k) as [b|]; simpl; [| discriminate].
  intros Hv. by exists b.
Qed.

Lemma SparseSet_position_Contains s k :
  SparseSet.Contains shift s k = bool_decide (is_Some (SparseSet_position shift s k)).
Proof.
  unfold SparseSet_position. destruct (SparseSet.Contains shift s k).
  - by rewrite bool_decide_eq_true_2.
  - rewrite bool_decide_eq_false_2; [done |]. by intros [? ?].
Qed.

Lemma SparseSet_position_GetOrCreate dense sparse size i k :
  SparseSet_position shift
    (SparseSet.mk dense (SparseSet.GetOrCreateBucket sparse i).1 size) k =
  SparseSet_position shift (SparseSet.mk dense sparse size) k.
Proof.
  rewrite !SparseSet_position_unfold. cbn [SparseSet.m_sparse].
  unfold SparseSet.GetOrCreateBucket.
  destruct (sparse !! i) as [b|] eqn:Hi; simpl; [reflexivity |].
  rewrite lookup_insert. case_decide as Hp; [| reflexivity].
  rewrite <- Hp, Hi. reflexivity.
Qed.

Lemma SparseSet_wf_size_pred s :
  SparseSet_wf shift s → 0 < SparseSet.m_size s →
  size_t_pred (SparseSet.m_size s) = SparseSet.m_size s - 1.
Proof.
  intros (_ & _ & Hsize & Hcap & _) Hpos. apply size_t_pred_pos. lia.
Qed.

(** [Insert] of a key that is not present, without split or resize: the
    state it returns, and the lookups in it. *)
Lemma SparseSet_Insert_fresh_position grow s k v :
  SparseSet.Contains shift s k = false →
  (∀ b, SparseSet.m_sparse s !! page k = Some b →
        sorted_by_offset b ∧ Bucket.Size b < CAP) →
  SparseSet.m_size s < SparseSet.m_capacity s →
  let sparse := (SparseSet.GetOrCreateBucket (SparseSet.m_sparse s) (page k)).1 in
  let b0 := (SparseSet.GetOrCreateBucket (SparseSet.m_sparse s) (page k)).2 in
  let s' := SparseSet.mk (<[N.to_nat (SparseSet.m_size s) := k]> (SparseSet.m_dense s))
              (<[page k := (Bucket.Insert CAP b0 (offset k) v).1]> sparse)
              (size_t_succ (SparseSet.m_size s)) in
  SparseSet.Insert shift grow s k v = Ok (s', SparseSet.m_size s) ∧
  sorted_by_offset b0 ∧ Bucket.Size b0 < CAP ∧
  Bucket.Contains b0 (offset k) = false ∧
  ∀ k', SparseSet_position shift s' k' =
        if decide (k' = k) then Some v else SparseSet_position shift s k'.
Proof.
  intros Hc Hbucket Hfree.
  pose proof (GetOrCreateBucket_self (SparseSet.m_sparse s) (page k)) as Hself.
  pose proof (λ k', SparseSet_position_GetOrCreate (SparseSet.m_dense s)
                      (SparseSet.m_sparse s) (SparseSet.m_size s) (page k) k') as Hpos1.
  destruct (SparseSet.GetOrCreateBucket (SparseSet.m_sparse s) (page k))
    as [sparse b0] eqn:Hget. cbn [fst snd] in *. cbv zeta.
  assert (Hb0 : sorted_by_offset b0 ∧ Bucket.Size b0 < CAP ∧
                Bucket.Contains b0 (offset k) = false).
  { revert Hget Hc. unfold SparseSet.GetOrCreateBucket, SparseSet.Contains. simpl.
    destruct (SparseSet.m_sparse s !! N.shiftr k shift) as [b|] eqn:Hb.
    - intros [= <- <-] Hc. destruct (Hbucket b Hb). done.
    - intros [= <- <-] _. split; [constructor |].
      split; [apply SPARSE_BUCKET_SIZE_pos | reflexivity]. }
  destruct Hb0 as (Hs0 & Hroom0 & Hc0).
  split; [by apply (SparseSet_Insert_fresh shift grow s k v sparse b0) |].
  split; [done |]. split; [done |]. split; [done |].
  intros k'. rewrite SparseSet_position_insert.
  assert (Hsp : SparseSet_position shift s k' =
                sparse !! page k' ≫= λ b, Bucket.Value b (offset k')).
  { destruct s as [d sp n]. cbn [SparseSet.m_dense SparseSet.m_size SparseSet.m_sparse] in *.
    by rewrite <- Hpos1, SparseSet_position_unfold. }
  rewrite Hsp. rewrite SparseSet_position_unfold. cbn [SparseSet.m_sparse].
  case_decide as Hp.
  - rewrite Bucket_Insert_Value by done. rewrite <- Hp, Hself. simpl.
    case_decide as Ho; case_decide as Hk; try done.
    + destruct Hk. by apply (page_offset_inj shift).
    + by subst k'.
  - rewrite decide_False; [done |]. by intros ->.
Qed.


Lemma merge_or_rebalance_no_next sparse i b :
  sparse !! (i + 1) = None → SparseSet.merge_or_rebalance shift sparse i b = sparse.
Proof.
  intros Hnext. unfold SparseSet.merge_or_rebalance. rewrite Hnext.
  by destruct (Bucket.Size b <? N.shiftr CAP 1).
Qed.

(** The state after a swap-remove, described by its lookups, satisfies
    the invariant again. *)
Lemma SparseSet_wf_swap_remove dense sparse size k r last sparse' :
  SparseSet_wf shift (SparseSet.mk dense sparse size) →
  SparseSet_position shift (SparseSet.mk dense sparse size) k = Some r →
  dense !! N.to_nat (size - 1) = Some last →
  all_sorted sparse' →
  within_capacity shift sparse' →
  (∀ k', SparseSet_position shift
           (SparseSet.mk (<[N.to_nat r := last]> dense) sparse' (size - 1)) k' =
         if decide (k' = k) then None
         else if decide (k' = last) then Some r
         else SparseSet_position shift (SparseSet.mk dense sparse size) k') →
  SparseSet_wf shift (SparseSet.mk (<[N.to_nat r := last]> dense) sparse' (size - 1)) ∧
  ∀ k', k' ≠ k →
    SparseSet_position shift
      (SparseSet.mk (<[N.to_nat r := last]> dense) sparse' (size - 1)) k' =
    match SparseSet_position shift (SparseSet.mk dense sparse size) k' with
    | Some i => Some (if i =? size - 1 then r else i)
    | None => None
    end.
Proof.
  intros (Hsorted & Hwithin & Hsize & Hcap & Hinv) Hk Hlast Hsorted' Hwithin' Hpos.
  unfold SparseSet.m_capacity, vsize in *.
  cbn [SparseSet.m_sparse SparseSet.m_dense SparseSet.m_size] in *.
  set (s := SparseSet.mk dense sparse size) in *.
  pose proof (proj1 (Hinv k r) Hk) as [Hr Hdr].
  assert (Hposlast : SparseSet_position shift s last = Some (size - 1)).
  { apply Hinv. split; [lia | done]. }
  assert (Hlt : (N.to_nat r < length dense)%nat) by lia.
  split.
  - unfold SparseSet_wf, SparseSet.m_capacity, vsize.
    cbn [SparseSet.m_sparse SparseSet.m_dense SparseSet.m_size].
    rewrite length_insert.
    split; [done |]. split; [done |]. split; [lia |]. split; [done |].
    intros k' i. rewrite Hpos.
    destruct (decide (i = r)) as [-> | Hir].
    + rewrite list_lookup_insert_eq by done.
      case_decide as Hk'; [subst k' | case_decide as Hl; [subst k' |]].
      * split; [done |]. intros [Hlt' [= ->]].
        rewrite Hk in Hposlast. injection Hposlast as ->. lia.
      * split; [intros _ | done]. split; [| done].
        destruct (decide (r = size - 1)) as [-> | ?]; [| lia].
        rewrite Hlast in Hdr. by injection Hdr as ->.
      * rewrite Hinv. split; [intros [_ Hd] | intros [_ [= ?]]]; [| done].
        rewrite Hdr in Hd. by injection Hd as ->.
    + rewrite list_lookup_insert_ne by lia.
      case_decide as Hk'; [subst k' | case_decide as Hl; [subst k' |]].
      * split; [done |]. intros [Hlt' Hd].
        assert (SparseSet_position shift s k = Some i) as Hki by (apply Hinv; split; [lia | done]).
        congruence.
      * split; [by intros [= ->] |]. intros [Hlt' Hd].
        assert (SparseSet_position shift s last = Some i) as Hli by (apply Hinv; split; [lia | done]).
        rewrite Hposlast in Hli. injection Hli as <-. lia.
      * rewrite Hinv. split; intros [Hlt' Hd]; (split; [| done]); [| lia].
        destruct (decide (i = size - 1)) as [-> | ?]; [| lia].
        rewrite Hlast in Hd. by injection Hd as ->.
  - intros k' Hne. rewrite Hpos, decide_False by done.
    case_decide as Hl.
    + subst k'. by rewrite Hposlast, N.eqb_refl.
    + destruct (SparseSet_position shift s k') as [i|] eqn:Hi; [| done].
      destruct (N.eqb_spec i (size - 1)) as [-> | ?]; [| done].
      apply Hinv in Hi as [_ Hd]. rewrite Hlast in Hd. by injection Hd as ->.
Qed.

(** What [Remove] computes for a key that is present, when the page after
    the key's page has no bucket. *)
Lemma SparseSet_Remove_present_result dense sparse size k r last :
  SparseSet_wf shift (SparseSet.mk dense sparse size) →
  SparseSet_position shift (SparseSet.mk dense sparse size) k = Some r →
  sparse !! (page k + 1) = None →
  dense !! N.to_nat (size - 1) = Some last →
  ∃ sparse',
    SparseSet.Remove shift (SparseSet.mk dense sparse size) k =
      Ok (SparseSet.mk (<[N.to_nat r := last]> dense) sparse' (size - 1)) ∧
    all_sorted sparse' ∧
    within_capacity shift sparse' ∧
    ∀ k', SparseSet_position shift
            (SparseSet.mk (<[N.to_nat r := last]> dense) sparse' (size - 1)) k' =
          if decide (k' = k) then None
          else if decide (k' = last) then Some r
          else SparseSet_position shift (SparseSet.mk dense sparse size) k'.
Proof.
  intros Hwf Hk Hnext Hlast.
  pose proof Hwf as (Hsorted & Hwithin & Hsize & Hcap & Hinv).
  destruct (SparseSet_position_page _ k r Hk) as (b & Hb & Hv).
  pose proof (proj1 (Hinv k r) Hk) as [Hr Hdr].
  assert (Hposlast : SparseSet_position shift (SparseSet.mk dense sparse size) last = Some (size - 1)).
  { apply Hinv. split; [simpl in *; lia | done]. }
  destruct (SparseSet_position_page _ last _ Hposlast) as (lb & Hlb & Hlv).
  pose proof (SparseSet_wf_size_pred _ Hwf ltac:(simpl in *; lia)) as Hpred.
  assert (Hposs : ∀ k', SparseSet_position shift (SparseSet.mk dense sparse size) k' =
                        sparse !! page k' ≫= λ b, Bucket.Value b (offset k')).
  { intros k'. by rewrite SparseSet_position_unfold. }
  unfold SparseSet.m_capacity, vsize in *.
  cbn [SparseSet.m_sparse SparseSet.m_dense SparseSet.m_size] in *.
  pose proof (Hsorted _ _ Hb) as Hsb.
  pose proof (Hsorted _ _ Hlb) as Hslb.
  unfold SparseSet.Remove.
  change (SparseSet.GetBucketIndexAndOffset shift k) with (page k, offset k).
  cbv iota. cbn [SparseSet.m_sparse SparseSet.m_dense SparseSet.m_size].
  rewrite (GetOrCreateBucket_existing _ _ _ Hb), Hv, Hpred.
  destruct (N.eqb_spec r (size - 1)) as [-> | Hne].
  - assert (last = k) as -> by congruence.
    rewrite list_insert_id by done.
    cbn [mbind outcome_bind mret outcome_ret]. rewrite Hb. cbn [default].
    rewrite merge_or_rebalance_no_next
      by (rewrite lookup_insert_ne by lia; done).
    eexists. split; [reflexivity |].
    split; [apply all_sorted_insert; [done | by apply Bucket_Remove_sorted] |].
    split.
    { apply within_capacity_insert; [done |]. apply Bucket_Remove_within.
      by eapply Hwithin. }
    intros k'. rewrite SparseSet_position_insert, Bucket_Remove_Value by done.
    rewrite (SparseSet_position_sparse _ dense _ _ size).
    case_decide as Hp.
    + case_decide as Ho.
      * rewrite decide_True; [done |]. by apply (page_offset_inj shift).
      * rewrite !decide_False by (by intros ->).
        by rewrite Hposs, <- Hp, Hb.
    + by rewrite !decide_False by (by intros ->).
  - assert (Hlk : last ≠ k).
    { intros ->. rewrite Hk in Hposlast. by injection Hposlast as ->. }
    unfold SparseSet.swap_with_last. rewrite Hpred. unfold vget, vset, vsize.
    rewrite Hlast. cbn [mbind outcome_bind mret outcome_ret].
    rewrite bool_decide_eq_true_2 by lia.
    cbn [mbind outcome_bind mret outcome_ret].
    change (SparseSet.GetBucketIndexAndOffset shift last) with (page last, offset last).
    cbv iota. rewrite Hlb. cbn [mbind outcome_bind mret outcome_ret].
    set (lb' := (Bucket.Insert CAP (Bucket.Remove lb (offset last)) (offset last) r).1).
    pose proof (λ other, Bucket_reinsert_Value CAP lb (offset last) _ r other Hslb
                           (Hwithin _ _ Hlb) Hlv) as Hlb'.
    cbv zeta in Hlb'. fold lb' in Hlb'.
    destruct (Hlb' 0) as (Hslb' & Hwlb' & _).
    assert (Hcur : ∃ cur, <[page last := lb']> sparse !! page k = Some cur ∧
                          sorted_by_offset cur ∧ Bucket.Size cur ≤ CAP ∧
                          ∀ k', page k = page k' →
                            Bucket.Value cur (offset k') =
                            if decide (k' = last) then Some r
                            else SparseSet_position shift (SparseSet.mk dense sparse size) k').
    { rewrite lookup_insert. case_decide as Hpl.
      - exists lb'. split; [done |]. split; [done |]. split; [done |].
        intros k' Hp. destruct (Hlb' (offset k')) as (_ & _ & ->).
        case_decide as Ho.
        + rewrite decide_True; [done |]. apply (page_offset_inj shift); congruence.
        + rewrite decide_False by (by intros ->).
          by rewrite Hposs, <- Hp, <- Hpl, Hlb.
      - exists b. split; [done |]. split; [done |]. split; [by eapply Hwithin |].
        intros k' Hp. rewrite decide_False by (intros ->; done).
        by rewrite Hposs, <- Hp, Hb. }
    destruct Hcur as (cur & -> & Hscur & Hwcur & Hvcur). cbn [default].
    rewrite merge_or_rebalance_no_next.
    2:{ rewrite lookup_insert_ne by lia. rewrite lookup_insert_ne; [done |].
        intros Heq. rewrite Heq in Hlb. congruence. }
    eexists. split; [reflexivity |].
    split.
    { apply all_sorted_insert; [by apply all_sorted_insert |].
      by apply Bucket_Remove_sorted. }
    split.
    { apply within_capacity_insert; [by apply within_capacity_insert |].
      by apply Bucket_Remove_within. }
    intros k'. rewrite !SparseSet_position_insert, Bucket_Remove_Value by done.
    rewrite (SparseSet_position_sparse _ dense _ _ size).
    case_decide as Hp.
    + case_decide as Ho.
      * rewrite decide_True; [done |]. by apply (page_offset_inj shift).
      * rewrite (decide_False (P:=k' = k)) by (by intros ->). by apply Hvcur.
    + rewrite (decide_False (P:=k' = k)) by (by intros ->).
      case_decide as Hpl.
      * destruct (Hlb' (offset k')) as (_ & _ & ->).
        case_decide as Ho.
        { rewrite decide_True; [done |]. by apply (page_offset_inj shift). }
        rewrite decide_False by (by intros ->).
        by rewrite Hposs, <- Hpl, Hlb.
      * by rewrite decide_False by (by intros ->).
Qed.

(** X22.  [Remove] of a key that is present, when the page after the
    key's page has no bucket (so that nothing is merged or rebalanced).
    On an index whose entries are exactly the positions below [m_size] of
    the dense array, the call succeeds without reading outside an array
    or through a missing bucket, the index has the same properties again
    with one entry less, the key is gone, and every other key is still
    present: the key that held the last position now holds the position
    of the removed key, and all others keep theirs. *)
Theorem SparseSet_Remove_present s k r :
  SparseSet_wf shift s →
  SparseSet_position shift s k = Some r →
  SparseSet.m_sparse s !! (page k + 1) = None →
  ∃ s', SparseSet.Remove shift s k = Ok s' ∧
        SparseSet_wf shift s' ∧
        SparseSet.m_size s' + 1 = SparseSet.m_size s ∧
        SparseSet.Contains shift s' k = false ∧
        ∀ k', k' ≠ k →
          SparseSet_position shift s' k' =
            match SparseSet_position shift s k' with
            | Some i => Some (if i =? SparseSet.m_size s - 1 then r else i)
            | None => None
            end.
Proof.
  intros Hwf Hk Hnext. destruct s as [dense sparse size].
  cbn [SparseSet.m_sparse SparseSet.m_size] in *.
  pose proof Hwf as (_ & _ & Hsize & Hcap & Hinv).
  pose proof (proj1 (Hinv k r) Hk) as [Hr _].
  unfold SparseSet.m_capacity, vsize in *.
  cbn [SparseSet.m_dense SparseSet.m_size] in *.
  destruct (lookup_lt_is_Some_2 dense (N.to_nat (size - 1)) ltac:(lia)) as [last Hlast].
  destruct (SparseSet_Remove_present_result dense sparse size k r last Hwf Hk Hnext Hlast)
    as (sparse' & Hrem & Hsorted' & Hwithin' & Hpos).
  destruct (SparseSet_wf_swap_remove dense sparse size k r last sparse'
              Hwf Hk Hlast Hsorted' Hwithin' Hpos) as [Hwf' Hothers].
  eexists. split; [exact Hrem |]. split; [exact Hwf' |].
  cbn [SparseSet.m_size]. split; [lia |]. split; [| exact Hothers].
  rewrite SparseSet_position_Contains, Hpos, decide_True by done.
  apply bool_decide_eq_false_2. by intros [? ?].
Qed.

End SparseSetInvariant.


Lemma two_key_index_wf : SparseSet_wf 10 two_key_index.
Proof.
  assert (Hs : sorted_by_offset [(5, 0); (9, 1)]) by (repeat constructor).
  unfold SparseSet_wf, two_key_index.
  cbn [SparseSet.m_sparse SparseSet.m_dense SparseSet.m_size].
  split.
  { intros i b Hb. apply lookup_singleton_Some in Hb as [_ <-]. exact Hs. }
  split.
  { intros i b Hb. apply lookup_singleton_Some in Hb as [_ <-]. vm_compute. discriminate. }
  split; [vm_compute; discriminate |]. split; [reflexivity |].
  intros k i. rewrite SparseSet_position_unfold.
  cbn [SparseSet.m_sparse SparseSet.m_dense SparseSet.m_size].
  split.
  - destruct ({[0 := [(5, 0); (9, 1)]]} !! (SparseSet.GetBucketIndexAndOffset 10 k).1)
      as [b|] eqn:Hb; [| discriminate].
    apply lookup_singleton_Some in Hb as [Hp <-]. simpl.
    intros Hv. apply (Bucket_Value_elem _ _ _ Hs) in Hv.
    apply elem_of_cons in Hv as [[= Ho ->] | Hv].
    { split; [reflexivity |]. simpl. f_equal. symmetry.
      apply (page_offset_inj 10); [symmetry; exact Hp | exact Ho]. }
    apply elem_of_cons in Hv as [[= Ho ->] | Hv]; [| by apply elem_of_nil in Hv].
    split; [reflexivity |]. simpl. f_equal. symmetry.
    apply (page_offset_inj 10); [symmetry; exact Hp | exact Ho].
  - intros [Hi Hd].
    destruct (N.to_nat i) as [|[|n]] eqn:Hn; simpl in Hd.
    + injection Hd as <-. replace i with 0 by lia. reflexivity.
    + injection Hd as <-. replace i with 1 by lia. reflexivity.
    + lia.
Qed.


Lemma SparseSet_Remove_present_witness :
  ∃ s', SparseSet.Remove 10 two_key_index 5 = Ok s' ∧
        SparseSet_wf 10 s' ∧
        SparseSet.m_size s' + 1 = SparseSet.m_size two_key_index ∧
        SparseSet.Contains 10 s' 5 = false ∧
        ∀ k', k' ≠ 5 →
          SparseSet_position 10 s' k' =
            match SparseSet_position 10 two_key_index k' with
            | Some i => Some (if i =? SparseSet.m_size two_key_index - 1 then 0 else i)
            | None => None
            end.
Proof.
  apply (SparseSet_Remove_present 10 two_key_index 5 0);
    [apply two_key_index_wf | reflexivity | reflexivity].
Defined.

(* ===================================================================== *)
(** ** Runs of [Add] on the keyed storage *)
(* ===================================================================== *)

Section PackedArrayAdds.

Context {Comp : Type}.
Variable shift : N.

Abbreviation CAP := (SparseSet.SPARSE_BUCKET_SIZE shift).
Abbreviation page k := (SparseSet.GetBucketIndexAndOffset shift k).1.
Abbreviation offset k := (SparseSet.GetBucketIndexAndOffset shift k).2.

Implicit Types (p : PackedArray.t Comp) (es : list (N * Comp)) (e : N) (c : Comp).

Lemma SparseSet_Get_position inv (s : SparseSet.t) k :
  SparseSet.Get shift inv s k = default inv (SparseSet_position shift s k).
Proof.
  rewrite SparseSet_position_unfold, SparseSet_Get_unfold.
  by destruct (SparseSet.m_sparse s !! page k).
Qed.

Lemma PackedArray_holds_empty : PackedArray_holds shift (PackedArray.empty shift (Comp:=Comp)) [].
Proof.
  unfold PackedArray_holds, PackedArray.empty, SparseSet.m_capacity, vsize. simpl.
  split; [intros i b; by rewrite lookup_empty |].
  split; [intros i b; by rewrite lookup_empty |].
  split; [done |]. split; [by rewrite length_replicate, N2Nat.id |].
  split; [| split; [done |]].
  - intros k i. rewrite SparseSet_position_unfold. simpl. by rewrite lookup_empty.
  - intros key. rewrite lookup_empty. rewrite decide_False; [done | lia].
Qed.

Lemma PackedArray_Add_holds grow p es e c :
  PackedArray_holds shift p es →
  e ∉ es.*1 →
  N.of_nat (length es) < CAP →
  N.of_nat (length es) + 1 < size_t_modulus →
  ∃ p', PackedArray.Add shift grow p e c = Ok p' ∧
        PackedArray_holds shift p' (es ++ [(e, c)]).
Proof.
  intros (Hsorted & Hsizes & Hsize & Hcap & Hpos & Hcomps & Hkeys) Hnew Hroom Hfit.
  destruct p as [s d]. cbn [PackedArray.m_sparseSet PackedArray.m_denseArray] in *.
  assert (Hnone : SparseSet_position shift s e = None).
  { destruct (SparseSet_position shift s e) as [i|] eqn:Hi; [| done].
    destruct Hnew. apply Hpos in Hi. by eapply list_elem_of_lookup_2. }
  assert (Hc : SparseSet.Contains shift s e = false).
  { rewrite SparseSet_position_Contains, Hnone.
    apply bool_decide_eq_false_2. by intros [? ?]. }
  assert (Hn : DenseArray.Size d = N.of_nat (length es)).
  { unfold DenseArray.Size, vsize. by rewrite Hcomps, length_fmap. }
  destruct (SparseSet_Insert_fresh_position shift grow s e (DenseArray.Size d) Hc)
    as (Hins & Hs0 & Hroom0 & Hc0 & Hpos'); [| lia |].
  { intros b Hb. split; [by eapply Hsorted |]. specialize (Hsizes _ _ Hb). lia. }
  destruct (all_sorted_GetOrCreateBucket _ (page e) Hsorted) as [Hsorted1 _].
  assert (Hb0 : Bucket.Size (SparseSet.GetOrCreateBucket (SparseSet.m_sparse s) (page e)).2
                ≤ N.of_nat (length es)).
  { unfold SparseSet.GetOrCreateBucket.
    destruct (SparseSet.m_sparse s !! page e) as [b|] eqn:Hb; simpl.
    - by eapply Hsizes.
    - unfold Bucket.Size, vsize. simpl. lia. }
  unfold PackedArray.Add. cbn [PackedArray.m_sparseSet PackedArray.m_denseArray].
  rewrite Hc, Hins. cbn [mbind outcome_bind mret outcome_ret].
  unfold DenseArray.Add, assert.
  rewrite bool_decide_eq_true_2
    by (rewrite Hkeys, Hn; rewrite decide_False; [done | lia]).
  cbn [mbind outcome_bind mret outcome_ret].
  eexists. split; [reflexivity |].
  unfold PackedArray_holds.
  cbn [PackedArray.m_sparseSet PackedArray.m_denseArray SparseSet.m_sparse
       SparseSet.m_size DenseArray.m_components DenseArray.m_keyToIndex].
  rewrite length_app. change (length [(e, c)]) with 1%nat.
  split; [apply all_sorted_insert; [done | by apply Bucket_Insert_sorted] |].
  split.
  { intros i b. rewrite lookup_insert. case_decide as Hp.
    - intros [= <-]. unfold Bucket.Size at 1. unfold vsize.
      rewrite Bucket_Insert_length. change (N.shiftr e shift) with (page e).
      rewrite (proj2 (N.leb_gt _ _) Hroom0).
      unfold Bucket.Size, vsize in Hb0. lia.
    - rewrite GetOrCreateBucket_lookup by done. intros Hb.
      specialize (Hsizes _ _ Hb). lia. }
  split; [rewrite Hsize; unfold size_t_succ; rewrite N.mod_small; lia |].
  split; [unfold SparseSet.m_capacity, vsize in *; simpl; by rewrite length_insert |].
  split; [| split].
  - intros k i. rewrite Hpos', fmap_app. change ([(e, c)].*1) with [e].
    rewrite lookup_snoc_Some, length_fmap.
    case_decide as Hk.
    + subst k. split.
      * intros [= <-]. right. split; [lia | done].
      * intros [[_ Hi] | [Hi _]]; [| f_equal; lia].
        destruct Hnew. by eapply list_elem_of_lookup_2.
    + rewrite Hpos. split.
      * intros Hi. left. split; [| done].
        apply lookup_lt_Some in Hi. by rewrite length_fmap in Hi.
      * intros [[_ Hi] | [_ Heq]]; [done | congruence].
  - by rewrite fmap_app, Hcomps.
  - intros key. change (vsize (DenseArray.m_components d)) with (DenseArray.Size d).
    rewrite lookup_insert, Hkeys, Hn.
    repeat case_decide; (done || lia || (f_equal; lia)).
Qed.

Lemma PackedArray_add_all_holds grow p es0 es :
  PackedArray_holds shift p es0 →
  NoDup (es0 ++ es).*1 →
  N.of_nat (length (es0 ++ es)) ≤ CAP →
  N.of_nat (length (es0 ++ es)) < size_t_modulus →
  ∃ p', PackedArray_add_all shift grow p es = Ok p' ∧
        PackedArray_holds shift p' (es0 ++ es).
Proof.
  revert p es0. induction es as [|[e c] es IH]; intros p es0 Hp Hnd Hcap Hfit.
  { exists p. by rewrite app_nil_r. }
  rewrite cons_middle, app_assoc in *.
  rewrite !length_app in Hcap, Hfit. simpl in Hcap, Hfit.
  destruct (PackedArray_Add_holds grow p es0 e c Hp) as (p1 & Hadd & Hp1); [| lia | lia |].
  { rewrite !fmap_app in Hnd. apply NoDup_app in Hnd as [Hnd _].
    apply NoDup_app in Hnd as (_ & Hdis & _). intros Hin.
    apply (Hdis e Hin). simpl. by left. }
  destruct (IH p1 (es0 ++ [(e, c)]) Hp1 Hnd) as (p' & Hrun & Hp').
  { rewrite !length_app. simpl. lia. }
  { rewrite !length_app. simpl. lia. }
  exists p'. split; [| done]. simpl. by rewrite Hadd.
Qed.

Lemma PackedArray_holds_Get inv p es (i : nat) e c :
  PackedArray_holds shift p es →
  es !! i = Some (e, c) →
  PackedArray.Get shift inv p e =
    Ok (if decide (i = 0%nat) then SharedDummy else Stored (N.of_nat i) c).
Proof.
  intros (_ & _ & _ & _ & Hpos & Hcomps & _) Hi.
  assert (SparseSet_position shift (PackedArray.m_sparseSet p) e = Some (N.of_nat i)) as He.
  { apply Hpos. by rewrite Nat2N.id, list_lookup_fmap, Hi. }
  assert (Hget : SparseSet.Get shift inv (PackedArray.m_sparseSet p) e = N.of_nat i).
  { by rewrite SparseSet_Get_position, He. }
  unfold PackedArray.Get. rewrite Hget.
  destruct (N.eqb_spec (N.of_nat i) 0) as [H0 | Hne].
  { rewrite decide_True by lia. reflexivity. }
  rewrite decide_False by lia.
  unfold DenseArray.GetByIndex, assert, vget, vsize. rewrite Hcomps, length_fmap.
  pose proof (lookup_lt_Some _ _ _ Hi).
  rewrite bool_decide_eq_true_2 by lia. cbn [mbind outcome_bind mret outcome_ret].
  by rewrite Nat2N.id, list_lookup_fmap, Hi.
Qed.

(** X23.  Adding up to [SPARSE_BUCKET_SIZE] different entities to an
    empty storage: every [Add] goes through, the storage holds as many
    records as were added, and [Get] of each entity but the first returns
    the record added for it, at the position given by the order of the
    calls.  For the first entity, which sits at position 0, [Get] returns
    the shared dummy. *)
Theorem PackedArray_add_all_Get grow inv es :
  NoDup es.*1 →
  N.of_nat (length es) ≤ CAP →
  N.of_nat (length es) < size_t_modulus →
  ∃ p, PackedArray_add_all shift grow (PackedArray.empty shift) es = Ok p ∧
       PackedArray.Size p = N.of_nat (length es) ∧
       ∀ (i : nat) e c, es !! i = Some (e, c) →
         PackedArray.Get shift inv p e =
           Ok (if decide (i = 0%nat) then SharedDummy else Stored (N.of_nat i) c).
Proof.
  intros Hnd Hcap Hfit.
  destruct (PackedArray_add_all_holds grow (PackedArray.empty shift) [] es
              PackedArray_holds_empty Hnd Hcap Hfit) as (p & Hrun & Hp).
  exists p. split; [exact Hrun |]. simpl in Hp. split.
  - destruct Hp as (_ & _ & _ & _ & _ & Hcomps & _).
    unfold PackedArray.Size, DenseArray.Size, vsize. by rewrite Hcomps, length_fmap.
  - intros i e c Hi. by eapply PackedArray_holds_Get.
Qed.


End PackedArrayAdds.

Lemma PackedArray_add_all_Get_witness :
  ∃ p, PackedArray_add_all 10 default_grow (PackedArray.empty 10) [(10, 1); (11, 2); (12, 3)]
         = Ok p ∧
       PackedArray.Size p = N.of_nat (length [(10, 1); (11, 2); (12, 3)]) ∧
       ∀ (i : nat) e c, [(10, 1); (11, 2); (12, 3)] !! i = Some (e, c) →
         PackedArray.Get 10 (size_t_modulus - 1) p e =
           Ok (if decide (i = 0%nat) then SharedDummy else Stored (N.of_nat i) c).
Proof.
  apply (PackedArray_add_all_Get 10 default_grow (size_t_modulus - 1)
           [(10, 1); (11, 2); (12, 3)]);
    [| vm_compute; discriminate | reflexivity].
  refine (bool_decide_unpack _ _). vm_compute. exact I.
Defined.


(* ===================================================================== *)
(** ** [Insert] into a full sparse index *)
(* ===================================================================== *)

Section SparseSetResize.

Variable shift : N.
Variable grow : N → N.

Abbreviation CAP := (SparseSet.SPARSE_BUCKET_SIZE shift).
Abbreviation page k := (SparseSet.GetBucketIndexAndOffset shift k).1.
Abbreviation offset k := (SparseSet.GetBucketIndexAndOffset shift k).2.

Implicit Types (s : SparseSet.t) (k v : N).

(** [Insert] of a key that is not present gets as far as the write to
    [m_dense], on the dense array that [Resize] leaves when the index is
    full. *)
Lemma SparseSet_Insert_new_dense s k v :
  SparseSet.Contains shift s k = false →
  ∃ sparse,
    SparseSet.Insert shift grow s k v =
      (let s2 := if SparseSet.m_size s =? SparseSet.m_capacity s
                 then SparseSet.Resize s (grow (SparseSet.m_capacity s)) else s in
       dense ← vset (SparseSet.m_dense s2) (SparseSet.m_size s) k;
       mret (SparseSet.mk dense sparse (size_t_succ (SparseSet.m_size s)),
             SparseSet.m_size s)).
Proof.
  intros Hc. unfold SparseSet.Insert.
  change (SparseSet.GetBucketIndexAndOffset shift k) with (page k, offset k).
  cbv iota.
  assert (Hb : Bucket.Contains
                 (SparseSet.GetOrCreateBucket (SparseSet.m_sparse s) (page k)).2
                 (offset k) = false).
  { revert Hc. unfold SparseSet.Contains, SparseSet.GetOrCreateBucket. simpl.
    by destruct (SparseSet.m_sparse s !! N.shiftr k shift). }
  destruct (SparseSet.GetOrCreateBucket (SparseSet.m_sparse s) (page k))
    as [sparse b]. cbn [snd] in Hb. rewrite Hb.
  destruct s as [d sp n]. unfold SparseSet.Resize, SparseSet.m_capacity.
  cbn [SparseSet.m_size SparseSet.m_dense SparseSet.m_sparse].
  destruct (CAP <=? Bucket.Size b).
  - destruct (SparseSet.GetOrCreateBucket sparse (page k + 1)) as [sparse2 nb].
    destruct (Bucket.Distribute b nb) as [b1 nb1].
    eexists. cbv zeta.
    cbn [SparseSet.m_size SparseSet.m_dense SparseSet.m_sparse].
    destruct (n =? vsize d); [destruct (grow (vsize d) <? vsize d) |];
      cbn [SparseSet.m_size SparseSet.m_dense SparseSet.m_sparse]; reflexivity.
  - eexists. cbv zeta.
    cbn [SparseSet.m_size SparseSet.m_dense SparseSet.m_sparse].
    destruct (n =? vsize d); [destruct (grow (vsize d) <? vsize d) |];
      cbn [SparseSet.m_size SparseSet.m_dense SparseSet.m_sparse]; reflexivity.
Qed.

(** X26.  [Insert] of a new key into a full index ([m_size] equal to the
    capacity) depends on what [m_capacity * m_growFactor] gives.  If that
    is not more than the capacity, as for capacity 0, [Resize] leaves the
    dense array no longer than it was and the write to [m_dense[m_size]]
    goes past its end.  If it is more, the call succeeds: the dense array
    has the new capacity, keeps its entries and holds the key at the old
    size. *)
Theorem SparseSet_Insert_at_capacity s k v :
  SparseSet.Contains shift s k = false →
  SparseSet.m_size s = SparseSet.m_capacity s →
  (grow (SparseSet.m_capacity s) ≤ SparseSet.m_capacity s →
   SparseSet.Insert shift grow s k v = Abort Undefined) ∧
  (SparseSet.m_capacity s < grow (SparseSet.m_capacity s) →
   ∃ s', SparseSet.Insert shift grow s k v = Ok (s', SparseSet.m_size s) ∧
         SparseSet.m_size s' = size_t_succ (SparseSet.m_size s) ∧
         SparseSet.m_capacity s' = grow (SparseSet.m_capacity s) ∧
         take (N.to_nat (SparseSet.m_size s)) (SparseSet.m_dense s') = SparseSet.m_dense s ∧
         SparseSet.m_dense s' !! N.to_nat (SparseSet.m_size s) = Some k).
Proof.
  intros Hc Hfull.
  destruct (SparseSet_Insert_new_dense s k v Hc) as [sparse ->].
  cbv zeta. rewrite Hfull, N.eqb_refl.
  unfold SparseSet.Resize, SparseSet.m_capacity, vset, vsize in *.
  rewrite Hfull, Nat2N.id, firstn_all. split.
  - intros Hgrow. destruct (N.ltb_spec (grow (N.of_nat (length (SparseSet.m_dense s))))
                              (N.of_nat (length (SparseSet.m_dense s)))) as [Hlt | Hge].
    + rewrite bool_decide_eq_false_2 by lia. reflexivity.
    + cbn [SparseSet.m_dense]. rewrite length_app, length_replicate.
      rewrite bool_decide_eq_false_2 by lia. reflexivity.
  - intros Hgrow. rewrite (proj2 (N.ltb_ge _ _)) by lia.
    cbn [SparseSet.m_dense]. rewrite length_app, length_replicate.
    rewrite bool_decide_eq_true_2 by lia.
    cbn [mbind outcome_bind mret outcome_ret].
    eexists. split; [reflexivity |].
    cbn [SparseSet.m_size SparseSet.m_dense]. split; [reflexivity |].
    rewrite length_insert, length_app, length_replicate. split; [lia |].
    split.
    + rewrite take_insert_ge by lia. by rewrite take_app_length.
    + apply list_lookup_insert_eq. rewrite length_app, length_replicate. lia.
Qed.

End SparseSetResize.

Lemma SparseSet_Insert_at_capacity_witness :
  (default_grow (SparseSet.m_capacity (SparseSet.create 0)) ≤ SparseSet.m_capacity (SparseSet.create 0) →
   SparseSet.Insert 10 default_grow (SparseSet.create 0) 5 0 = Abort Undefined) ∧
  (SparseSet.m_capacity (SparseSet.create 0) < default_grow (SparseSet.m_capacity (SparseSet.create 0)) →
   ∃ s', SparseSet.Insert 10 default_grow (SparseSet.create 0) 5 0
           = Ok (s', SparseSet.m_size (SparseSet.create 0)) ∧
         SparseSet.m_size s' = size_t_succ (SparseSet.m_size (SparseSet.create 0)) ∧
         SparseSet.m_capacity s' = default_grow (SparseSet.m_capacity (SparseSet.create 0)) ∧
         take (N.to_nat (SparseSet.m_size (SparseSet.create 0))) (SparseSet.m_dense s')
           = SparseSet.m_dense (SparseSet.create 0) ∧
         SparseSet.m_dense s' !! N.to_nat (SparseSet.m_size (SparseSet.create 0)) = Some 5).
Proof.
  apply (SparseSet_Insert_at_capacity 10 default_grow (SparseSet.create 0) 5 0);
    reflexivity.
Defined.
